(** * MessengerFlow: webhook ingestion, store mutation and client send

    A shallow embedding of
      - server/routes/webhook.js   (router.post, handleMessage,
                                    handleDelivery, handleRead),
      - server/routes/api.js       (POST /send-message, the two sync routes,
                                    GET /messages/:conversationId),
      - components/Inbox/ChatWindow.tsx (isWindowExpired, chatMessages,
                                    validateMessageContent, handleSend),
    over a model of the two tables of database/schema.sql that these
    functions write: [conversations] and [messages], both with
    [id TEXT PRIMARY KEY].

    Conventions.
      - A table is a finite map from the primary key to the row.
      - A time value is the number of milliseconds since the epoch, as
        [Date.prototype.getTime] gives it; an ISO string produced by
        [toISOString] is identified with the time value it denotes.
      - A string is the sequence of the bytes of its UTF-8 encoding.
      - A JSON field that may be absent is an [option]; a field that is
        present has the type the platform documents for it.
      - The store client (supabase-js) reports a rejected statement in the
        [error] member of its result and does not throw; the statement then
        leaves the table as it was.
      - The rows of [pages] and [agents] that a foreign key of a
        conversation names are taken to exist. *)

From stdpp Require Import base option list strings gmap fin_maps sorting pretty.
From Stdlib Require Import ZArith Lia.

Open Scope string_scope.
Open Scope list_scope.
Open Scope Z_scope.

(** ** Rows of the schema *)

Inductive ConversationStatus := OPEN | PENDING | RESOLVED.

Record Conversation := mkConversation {
  conv_id : string;
  pageId : string;
  customerId : string;
  customerName : string;
  customerAvatar : string;
  lastMessage : string;
  lastTimestamp : Z;
  status : ConversationStatus;
  assignedAgentId : option string;
  unreadCount : Z
}.

Record Message := mkMessage {
  msg_id : string;
  conversationId : string;
  senderId : string;
  senderName : string;
  text : string;
  timestamp : Z;
  isIncoming : bool;
  isRead : bool
}.

Record Store := mkStore {
  conversations : gmap string Conversation;
  messages : gmap string Message
}.

Definition empty_store : Store := mkStore ∅ ∅.

Global Instance ConversationStatus_eq_dec : EqDecision ConversationStatus.
Proof. solve_decision. Defined.
Global Instance Conversation_eq_dec : EqDecision Conversation.
Proof. solve_decision. Defined.
Global Instance Message_eq_dec : EqDecision Message.
Proof. solve_decision. Defined.

(** ** The logger *)

Inductive Level := Info | Warn | Error.

Record LogEntry := mkLog { level : Level; line : string }.

Definition Log := list LogEntry.

Global Instance Level_eq_dec : EqDecision Level.
Proof. solve_decision. Defined.

Definition is_error (l : LogEntry) : bool :=
  match level l with Error => true | _ => false end.

Definition is_warn (l : LogEntry) : bool :=
  match level l with Warn => true | _ => false end.

(** ** JavaScript values used by the handlers *)

(** [new Date(v).toISOString()]: a time value outside of ±8.64e15 ms, or a
    value that is no time at all, gives an Invalid Date, on which
    [toISOString] throws a RangeError. *)
Definition toISOString (v : option Z) : option Z :=
  match v with
  | Some t => if bool_decide (-8640000000000000 ≤ t ≤ 8640000000000000) then Some t else None
  | None => None
  end.

(** [s.substring(0, n)] *)
Fixpoint substring0 (n : nat) (s : string) : string :=
  match n, s with
  | S n', String a s' => String a (substring0 n' s')
  | _, _ => EmptyString
  end.

(** The template literal of handleMessage: pageId, an underscore, senderId. *)
Definition conversationIdOf (page sender : string) : string :=
  page +:+ "_" +:+ sender.

Definition userName (sender : string) : string :=
  "User " +:+ substring0 8 sender.

(** ** Statements on the store *)

Definition belongs_to (page customer : string) (kr : string * Conversation) : Prop :=
  customerId kr.2 = customer ∧ pageId kr.2 = page.

Global Instance belongs_to_dec page customer kr : Decision (belongs_to page customer kr).
Proof. unfold belongs_to. apply _. Defined.

(** [.from('conversations').select('id').eq('customerId', c).eq('pageId', p).single()]:
    [data] is the row when exactly one row matches, and null otherwise. *)
Definition select_conversation (page customer : string)
    (convs : gmap string Conversation) : option string :=
  match map_to_list (filter (belongs_to page customer) convs) with
  | [(k, _)] => Some k
  | _ => None
  end.

(** The timestamps that a timestamptz column takes from handleMessage. The
    string of [toISOString] has a year of four digits for the years 0000 to
    9999 and a sign and six digits for the others; the store reads the
    years 0001 to 9999 and refuses the statement that carries another
    string. *)
Definition storable (ts : Z) : bool :=
  bool_decide (-62135596800000 ≤ ts ≤ 253402300799999).

(** [.upsert(row)]: insert, or replace the row with the same primary key;
    refused, the table left as it was, when the row's lastTimestamp is not
    storable. *)
Definition upsert_conversation (row : Conversation)
    (convs : gmap string Conversation) : gmap string Conversation :=
  if storable (lastTimestamp row) then <[conv_id row := row]> convs else convs.

(** [.update({lastMessage, lastTimestamp,
             unreadCount: supabaseAdmin.rpc('increment', { x: 1 })}).eq('id', k)]:
    the value that handleMessage names for unreadCount is the query builder
    that [rpc] returns, which is not awaited: no procedure runs, and the
    builder goes into the body of the update as a JSON object. The INTEGER
    column does not take it, the store refuses the statement and no column
    of the row changes; handleMessage does not read the result. *)
Definition update_incoming (txt : string) (ts : Z) (k : string)
    (convs : gmap string Conversation) : gmap string Conversation :=
  convs.

(** [.update({lastMessage, lastTimestamp}).eq('id', k)] *)
Definition touch_outgoing (txt : string) (ts : Z) (c : Conversation) : Conversation :=
  mkConversation (conv_id c) (pageId c) (customerId c) (customerName c)
    (customerAvatar c) txt ts (status c) (assignedAgentId c) (unreadCount c).

(** [.from('messages').insert(row)]: rejected when the primary key is
    already taken, or when the row's conversation does not exist
    (conversationId REFERENCES conversations(id)). The timestamp of the row
    is that of the server's clock in the send-message route; handleMessage,
    which takes it from the event, is the one caller that can name a
    timestamp that is not storable, see [store_message]. *)
Definition insert_message (row : Message) (st : Store) : option Store :=
  match messages st !! msg_id row, conversations st !! conversationId row with
  | None, Some _ =>
      Some (mkStore (conversations st) (<[msg_id row := row]> (messages st)))
  | _, _ => None
  end.

Definition mark_read (m : Message) : Message :=
  mkMessage (msg_id m) (conversationId m) (senderId m) (senderName m) (text m)
    (timestamp m) (isIncoming m) true.

(** [.from('messages').update({isRead: true}).in('id', ids)] *)
Definition update_read_in (ids : list string) (msgs : gmap string Message)
    : gmap string Message :=
  map_imap (λ k m, Some (if bool_decide (k ∈ ids) then mark_read m else m)) msgs.

(** [.from('messages').update({isRead: true}).lte('timestamp', w)] *)
Definition update_read_lte (w : Z) (msgs : gmap string Message)
    : gmap string Message :=
  (λ m, if bool_decide (timestamp m ≤ w) then mark_read m else m) <$> msgs.

(** ** The webhook payload *)

Record MessagePart := mkMessagePart {
  mid : option string;
  msg_text : option string
}.

Record DeliveryPart := mkDeliveryPart { mids : option (list string) }.

Record ReadPart := mkReadPart { watermark : option Z }.

(** [sender] and [recipient] hold [sender.id] and [recipient.id]; [None]
    stands for an event without the [sender] (or [recipient]) object. *)
Record WebhookEvent := mkEvent {
  sender : option string;
  recipient : option string;
  ev_timestamp : option Z;
  message : option MessagePart;
  delivery : option DeliveryPart;
  read : option ReadPart
}.

Record Entry := mkEntry { messaging : option (list WebhookEvent) }.

Record Body := mkBody {
  object : string;
  entry : option (list Entry)
}.

(** ** webhook.js *)

(** What a handler hands back: how it completed, the store, and the lines
    it logged. *)
Inductive Completion := Normal | Thrown.

Global Instance Completion_eq_dec : EqDecision Completion.
Proof. solve_decision. Defined.

Definition Outcome : Type := Completion * Store * Log.

Definition new_conversation (page customer txt : string) (ts : Z) : Conversation :=
  mkConversation (conversationIdOf page customer) page customer (userName customer)
    "" txt ts OPEN None 1.

Definition incoming_message (k conv customer txt : string) (ts : Z) : Message :=
  mkMessage k conv customer (userName customer) txt ts true false.

(** The truth value of an optional string, as in [!message.text] and
    [senderId || 'agent']: an absent string and the empty string are falsy. *)
Definition truthy_text (t : option string) : option string :=
  match t with
  | Some "" => None
  | other => other
  end.

(** The conversation part of handleMessage, given what the select returned. *)
Definition resolve_conversation (existingConv : option string)
    (page customer txt : string) (ts : Z) (st : Store) : Store * Log :=
  match existingConv with
  | None =>
      (mkStore (upsert_conversation (new_conversation page customer txt ts)
                  (conversations st)) (messages st),
       [mkLog Info "New conversation created"])
  | Some k =>
      (mkStore (update_incoming txt ts k (conversations st)) (messages st), [])
  end.

(** [existingConv?.id || `${pageId}_${senderId}`] *)
Definition conversation_of (existingConv : option string) (page customer : string)
    : string :=
  default (conversationIdOf page customer) (truthy_text existingConv).

(** The message part of handleMessage: a row without an identifier, and a
    row whose timestamp is not storable, are refused as well. *)
Definition store_message (existingConv : option string) (key : option string)
    (page customer txt : string) (ts : Z) (st : Store) : Store * Log :=
  let conv := conversation_of existingConv page customer in
  match key ≫= λ k, if storable ts
                    then insert_message (incoming_message k conv customer txt ts) st
                    else None with
  | Some st' => (st', [mkLog Info "Message stored and pushed to clients (real-time)"])
  | None => (st, [mkLog Error "Error storing message"])
  end.

(** The body of handleMessage after the select has returned [existingConv]. *)
Definition handleMessage_after (existingConv : option string) (key : option string)
    (page customer txt : string) (ts : Z) (st : Store) : Store * Log :=
  let '(st1, l1) := resolve_conversation existingConv page customer txt ts st in
  let '(st2, l2) := store_message existingConv key page customer txt ts st1 in
  (st2, l1 ++ l2).

Definition handleMessage (ev : WebhookEvent) (m : MessagePart)
    (page customer : string) (st : Store) : Store * Log :=
  match truthy_text (msg_text m) with
  | None => (st, [mkLog Warn "Received non-text message, skipping"])
  | Some txt =>
      match toISOString (ev_timestamp ev) with
      | None => (st, [mkLog Error "Error handling message"])
      | Some ts =>
          handleMessage_after (select_conversation page customer (conversations st))
            (mid m) page customer txt ts st
      end
  end.

Definition handleDelivery (d : DeliveryPart) (st : Store) : Store * Log :=
  match mids d with
  | Some (i :: ids) =>
      (mkStore (conversations st) (update_read_in (i :: ids) (messages st)),
       [mkLog Info "Messages marked as delivered"])
  | _ => (st, [])
  end.

Definition handleRead (r : ReadPart) (st : Store) : Store * Log :=
  match toISOString (watermark r) with
  | Some w =>
      (mkStore (conversations st) (update_read_lte w (messages st)),
       [mkLog Info "Messages marked as read up to"])
  | None => (st, [mkLog Error "Error updating read status"])
  end.

(** One turn of the loop of router.post: [entry.messaging[0]], the two
    identifiers, then the dispatch on the kind of event. Reading a member of
    an absent object throws a TypeError, which leaves the loop. *)
Definition process_entry (en : Entry) (st : Store) : Outcome :=
  match messaging en with
  | None => (Thrown, st, [])
  | Some [] => (Normal, st, [])
  | Some (webhookEvent :: _) =>
      match sender webhookEvent, recipient webhookEvent with
      | Some senderId, Some recipientId =>
          let pageId := recipientId in
          match message webhookEvent, delivery webhookEvent, read webhookEvent with
          | Some m, _, _ =>
              let '(st', l) := handleMessage webhookEvent m pageId senderId st in
              (Normal, st', l)
          | None, Some d, _ =>
              let '(st', l) := handleDelivery d st in (Normal, st', l)
          | None, None, Some r =>
              let '(st', l) := handleRead r st in (Normal, st', l)
          | None, None, None => (Normal, st, [])
          end
      | _, _ => (Thrown, st, [])
      end
  end.

Fixpoint process_entries (es : list Entry) (st : Store) : Outcome :=
  match es with
  | [] => (Normal, st, [])
  | en :: rest =>
      match process_entry en st with
      | (Normal, st', l) =>
          let '(c, st'', l') := process_entries rest st' in (c, st'', l ++ l')
      | (Thrown, st', l) => (Thrown, st', l)
      end
  end.

(** The status the handler answers with, sent before any processing. *)
Definition EVENT_RECEIVED : Z := 200.

(** router.post('/'): the answer, then the try block around the loop. *)
Definition post (body : Body) (st : Store) : Z * Store * Log :=
  if bool_decide (object body = "page") then
    match entry body with
    | None => (EVENT_RECEIVED, st, [mkLog Error "Error processing webhook event"])
    | Some es =>
        match process_entries es st with
        | (Normal, st', l) => (EVENT_RECEIVED, st', l)
        | (Thrown, st', l) =>
            (EVENT_RECEIVED, st', l ++ [mkLog Error "Error processing webhook event"])
        end
    end
  else (EVENT_RECEIVED, st, []).

(** ** api.js: POST /send-message *)

Record SendBody := mkSendBody {
  sb_conversationId : option string;
  sb_text : option string;
  sb_senderId : option string;
  sb_senderName : option string
}.

(** The readings of the clock and of the random generator that one call
    makes: [Date.now()], [Math.random().toString(36).substr(2, 9)] and
    [new Date()]. *)
Record Env := mkEnv {
  date_now : Z;
  random_suffix : string;
  date_new : Z
}.

Inductive ApiResponse :=
  | Json (m : Message)
  | Status400 (e : string)
  | Status500.

Definition outgoing_message (env : Env) (conv txt : string)
    (from name : option string) : Message :=
  mkMessage ("msg_" +:+ pretty (date_now env) +:+ "_" +:+ random_suffix env)
    conv (default "agent" (truthy_text from)) (default "Agent" (truthy_text name))
    txt (date_new env) false true.

Definition send_message (env : Env) (body : SendBody) (st : Store)
    : ApiResponse * Store * Log :=
  match truthy_text (sb_conversationId body), truthy_text (sb_text body) with
  | Some conv, Some txt =>
      let row := outgoing_message env conv txt (sb_senderId body) (sb_senderName body) in
      match insert_message row st with
      | None => (Status500, st, [mkLog Error "Error sending message"])
      | Some st1 =>
          (Json row,
           mkStore (alter (touch_outgoing txt (date_new env)) conv (conversations st1))
             (messages st1),
           [mkLog Info "Message sent and pushed to clients"])
      end
  | _, _ => (Status400 "conversationId and text are required", st, [])
  end.

(** ** ChatWindow.tsx *)

Definition DAY_MS : Z := 24 * 60 * 60 * 1000.

(** The memo [isWindowExpired]: [lastTime] is the conversation's
    lastTimestamp and [now] the clock when the memo is evaluated. *)
Definition isWindowExpired (lastTime now : Z) : bool :=
  bool_decide (now - lastTime > DAY_MS).

Inductive WindowPolicy := ALLOWED | RESTRICTED.

Definition windowPolicy (lastTime now : Z) : WindowPolicy :=
  if isWindowExpired lastTime now then RESTRICTED else ALLOWED.

Record Page := mkPage { page_id : string; accessToken : string }.

Record User := mkUser { user_id : string; user_name : string }.

Record LastError := mkLastError { err_text : string; isPolicy : bool }.

(** The state the component reads and writes: [view] is the [messages] of
    the application context, the rest is the component's own. *)
Record ChatState := mkChat {
  view : list Message;
  inputText : string;
  isSending : bool;
  lastError : option LastError;
  showLibrary : bool;
  showRestrictedPopup : bool;
  sentMessageIds : gset string
}.

Record Props := mkProps {
  conversation : Conversation;
  pages : list Page;
  approvedLinks : list string;
  currentUser : option User;
  memo_now : Z
}.

(** Modelled from the spec: [addMessage] of store/AppContext is not in the
    repository. The Message invariant of the data model is that "a write
    with a previously seen identity is a no-op (idempotent upsert), never a
    duplicate row": a message is appended unless its identifier is present. *)
Definition addMessage (m : Message) (v : list Message) : list Message :=
  if bool_decide (msg_id m ∈ msg_id <$> v) then v else v ++ [m].

(** The fan-out path: the subscription callback hands the inserted row to
    [addMessage]. *)
Definition onMessage (row : Message) (st : ChatState) : ChatState :=
  mkChat (addMessage row (view st)) (inputText st) (isSending st) (lastError st)
    (showLibrary st) (showRestrictedPopup st) (sentMessageIds st).

Definition by_time (a b : Message) : Prop := timestamp a ≤ timestamp b.

Global Instance by_time_dec : RelDecision by_time.
Proof. intros a b. unfold by_time. apply _. Defined.

(** [Array.prototype.sort] with the comparator of [chatMessages], the
    difference of the two times: the sort is stable, so a message goes in
    front of the first one that is not older, behind those that came
    before it in the array. *)
Fixpoint sort_insert (m : Message) (l : list Message) : list Message :=
  match l with
  | [] => [m]
  | x :: l' =>
      if bool_decide (timestamp m ≤ timestamp x) then m :: l
      else x :: sort_insert m l'
  end.

Definition sort_by_time (l : list Message) : list Message := foldr sort_insert [] l.

(** The memo [chatMessages]: what the window renders, one bubble a row. *)
Definition chatMessages (conv : Conversation) (msgs : list Message) : list Message :=
  sort_by_time (filter (λ m, conversationId m = conv_id conv) msgs).

(** A string stands for its UTF-8 encoding; [code a] is the value of the
    byte [a]. *)
Definition code (a : Ascii.ascii) : N := Ascii.N_of_ascii a.

(** The white space of ECMAScript, which [String.prototype.trim] strips and
    [\s] matches (WhiteSpace and LineTerminator): U+0009 to U+000D, U+0020,
    U+00A0, U+1680, U+2000 to U+200A, U+2028, U+2029, U+202F, U+205F, U+3000
    and U+FEFF, by the bytes of their encodings in one, two and three
    bytes. *)
Definition space1 (b : N) : bool := ((9 <=? b) && (b <=? 13) || (b =? 32))%N.

Definition space2 (b1 b2 : N) : bool := ((b1 =? 194) && (b2 =? 160))%N.

Definition space3 (b1 b2 b3 : N) : bool :=
  ((b1 =? 225) && (b2 =? 154) && (b3 =? 128)
   || (b1 =? 226) && (b2 =? 128)
      && ((128 <=? b3) && (b3 <=? 138) || (b3 =? 168) || (b3 =? 169) || (b3 =? 175))
   || (b1 =? 226) && (b2 =? 129) && (b3 =? 159)
   || (b1 =? 227) && (b2 =? 128) && (b3 =? 128)
   || (b1 =? 239) && (b2 =? 187) && (b3 =? 191))%N.

(** The length in bytes of the white space character that [s] starts
    with, 0 when it starts with none. *)
Definition space_width (s : string) : nat :=
  match s with
  | String a s1 =>
      if space1 (code a) then 1%nat
      else match s1 with
           | String b s2 =>
               if space2 (code a) (code b) then 2%nat
               else match s2 with
                    | String c _ =>
                        if space3 (code a) (code b) (code c) then 3%nat else 0%nat
                    | EmptyString => 0%nat
                    end
           | EmptyString => 0%nat
           end
  | EmptyString => 0%nat
  end.

Global Arguments space_width : simpl never.

(** The string from its first character that is no white space on;
    [skip] counts the bytes still to pass of the white space character
    being read. *)
Fixpoint skip_spaces (skip : nat) (s : string) : string :=
  match s with
  | EmptyString => EmptyString
  | String _ s' =>
      match skip with
      | S n => skip_spaces n s'
      | O => match space_width s with
             | S n => skip_spaces n s'
             | O => s
             end
      end
  end.

Definition trim_start (s : string) : string := skip_spaces 0 s.

(** White space only, or nothing. *)
Definition blank (s : string) : bool := bool_decide (trim_start s = "").

(** The string up to where white space only is left. *)
Fixpoint trim_end (s : string) : string :=
  match s with
  | EmptyString => EmptyString
  | String a s' => if blank s then EmptyString else String a (trim_end s')
  end.

(** [String.prototype.trim] *)
Definition trim (s : string) : string := trim_end (trim_start s).

Fixpoint starts_with (p s : string) : bool :=
  match p, s with
  | EmptyString, _ => true
  | String a p', String b s' => bool_decide (a = b) && starts_with p' s'
  | String _ _, EmptyString => false
  end.

Fixpoint drop_string (n : nat) (s : string) : string :=
  match n, s with
  | S n', String _ s' => drop_string n' s'
  | _, _ => s
  end.

(** The string starts with [p], and a character that is no white space
    comes next. *)
Definition followed (p s : string) : bool :=
  starts_with p s &&
  match drop_string (String.length p) s with
  | String a r => Nat.eqb (space_width (String a r)) 0
  | EmptyString => false
  end.

(** A scheme, the two slashes and one more character that is no white
    space: where the expression [https?:\/\/[^\s]+] starts to match. *)
Definition url_starts (s : string) : bool :=
  followed "http://" s || followed "https://" s.

(** What [[^\s]+] reads, as much as it can: the string up to its first
    white space character. *)
Fixpoint non_space_run (s : string) : string :=
  match s with
  | EmptyString => EmptyString
  | String a s' =>
      if Nat.eqb (space_width s) 0 then String a (non_space_run s') else EmptyString
  end.

(** [text.match(urlRegex) || []]: the matches from left to right. A match
    runs from where the expression starts to match up to the next white
    space, and the search goes on behind it; [skip] counts the bytes of the
    last match that are still to pass. *)
Fixpoint match_urls (skip : nat) (s : string) : list string :=
  match s with
  | EmptyString => []
  | String _ s' =>
      match skip with
      | S n => match_urls n s'
      | O =>
          if url_starts s
          then non_space_run s :: match_urls (String.length (non_space_run s) - 1) s'
          else match_urls 0 s'
      end
  end.

(** validateMessageContent: the verdict; a refusal shows the popup.
    [approved] is [approvedLinks.map(link => link.url)]. *)
Definition validateMessageContent (approved : list string) (txt : string) : bool :=
  let urls := match_urls 0 txt in
  if bool_decide (0 < length urls)%nat
  then
    let hasUnapprovedUrl := existsb (λ url, negb (bool_decide (url ∈ approved))) urls in
    if hasUnapprovedUrl then false else true
  else true.

(** [haystack.includes(needle)] *)
Fixpoint includes (needle hay : string) : bool :=
  starts_with needle hay ||
  match hay with
  | String _ hay' => includes needle hay'
  | EmptyString => false
  end.

Record SendRequest := mkRequest {
  rq_recipient : string;
  rq_text : string;
  rq_token : string;
  rq_tag : option string
}.

Record SendError := mkSendError {
  err_code : option Z;
  err_message : option string
}.

(** How the awaited [sendPageMessage] settles: with a response, whose
    [message_id] may be missing, or with a rejection. *)
Inductive SendResult :=
  | Resolved (message_id : option string)
  | Rejected (err : SendError).

(** handleSend up to the [await]: either it has returned, or the request
    is out and the optimistic message is in the view. *)
Inductive Begun :=
  | Returned (st : ChatState)
  | Awaiting (st : ChatState) (rq : SendRequest) (optimisticMessage : Message).

Definition EXPIRED_NOTICE : string :=
  "This conversation is older than 24 hours. You can only send messages with the HUMAN_AGENT tag. Facebook may restrict this.".

Definition WINDOW_ERROR : string :=
  "Cannot send message: 24-hour messaging window has expired. You need to wait for the customer to message you first, or use a message tag.".

Definition set_lastError (e : option LastError) (st : ChatState) : ChatState :=
  mkChat (view st) (inputText st) (isSending st) e (showLibrary st)
    (showRestrictedPopup st) (sentMessageIds st).

Definition handleSend_begin (props : Props) (env : Env) (forcedText : option string)
    (st : ChatState) : Begun :=
  let textToSubmit := trim (default (inputText st) (truthy_text forcedText)) in
  let expired := isWindowExpired (lastTimestamp (conversation props)) (memo_now props) in
  if bool_decide (textToSubmit = "") || isSending st then Returned st
  else if negb (bool_decide (is_Some (truthy_text forcedText)))
          && negb (validateMessageContent (approvedLinks props) textToSubmit)
  then Returned (mkChat (view st) (inputText st) (isSending st) (lastError st)
                   (showLibrary st) true (sentMessageIds st))
  else
    match list_find (λ p, page_id p = pageId (conversation props)) (pages props) with
    | Some (_, currentPage) =>
        if bool_decide (accessToken currentPage = "")
        then Returned (set_lastError (Some (mkLastError "Page not connected" false)) st)
        else
          let st1 :=
            if expired then set_lastError (Some (mkLastError EXPIRED_NOTICE true)) st
            else st in
          let tempId := "temp-" +:+ pretty (date_now env) +:+ "-" +:+ random_suffix env in
          if bool_decide (tempId ∈ sentMessageIds st1) then Returned st1
          else
            let optimisticMessage :=
              mkMessage tempId (conv_id (conversation props))
                (default "agent" (truthy_text (user_id <$> currentUser props)))
                (default "Agent" (truthy_text (user_name <$> currentUser props)))
                textToSubmit (date_new env) false true in
            Awaiting
              (mkChat (addMessage optimisticMessage (view st1)) (inputText st1) true None
                 (showLibrary st1) (showRestrictedPopup st1)
                 ({[tempId]} ∪ sentMessageIds st1))
              (mkRequest (customerId (conversation props)) textToSubmit
                 (accessToken currentPage)
                 (if expired then Some "HUMAN_AGENT" else None))
              optimisticMessage
    | None => Returned (set_lastError (Some (mkLastError "Page not connected" false)) st)
    end.

Definition with_id (k : string) (m : Message) : Message :=
  mkMessage k (conversationId m) (senderId m) (senderName m) (text m)
    (timestamp m) (isIncoming m) (isRead m).

(** handleSend from the [await] on: the try block's remainder, the catch
    block and the finally block. *)
Definition handleSend_settle (forcedText : option string) (optimisticMessage : Message)
    (res : SendResult) (st : ChatState) : ChatState :=
  match res with
  | Resolved message_id =>
      let v :=
        match truthy_text message_id with
        | Some k => addMessage (with_id k optimisticMessage) (view st)
        | None => view st
        end in
      mkChat v (match truthy_text forcedText with Some _ => inputText st | None => "" end)
        false
        (lastError st) false (showRestrictedPopup st) (sentMessageIds st)
  | Rejected err =>
      let e :=
        if bool_decide (err_code err = Some 10900)
           || from_option (includes "24 hour") false (err_message err)
        then mkLastError WINDOW_ERROR true
        else mkLastError (default "Failed to send message" (truthy_text (err_message err)))
               false in
      mkChat (view st) (inputText st) false (Some e) (showLibrary st)
        (showRestrictedPopup st) (sentMessageIds st ∖ {[msg_id optimisticMessage]})
  end.

Definition handleSend (props : Props) (env : Env) (forcedText : option string)
    (res : SendResult) (st : ChatState) : ChatState :=
  match handleSend_begin props env forcedText st with
  | Returned st' => st'
  | Awaiting st' _ optimisticMessage =>
      handleSend_settle forcedText optimisticMessage res st'
  end.

(** The request, if any, that a call of handleSend issues. *)
Definition request_of (b : Begun) : option SendRequest :=
  match b with
  | Returned _ => None
  | Awaiting _ rq _ => Some rq
  end.

(** ** Vocabulary of the properties and the scenarios of the specification *)

(** At most one conversation row belongs to the pair. *)
Definition pair_unique (page customer : string)
    (convs : gmap string Conversation) : Prop :=
  ∀ k1 k2 r1 r2,
    convs !! k1 = Some r1 → convs !! k2 = Some r2 →
    belongs_to page customer (k1, r1) → belongs_to page customer (k2, r2) →
    k1 = k2.

(** No conversation row belongs to the pair. *)
Definition pair_absent (page customer : string)
    (convs : gmap string Conversation) : Prop :=
  ∀ k r, convs !! k = Some r → ¬ belongs_to page customer (k, r).

(** Exactly one conversation row belongs to the pair: the row [r] under [k]. *)
Definition sole_row (page customer k : string) (r : Conversation)
    (convs : gmap string Conversation) : Prop :=
  convs !! k = Some r ∧ belongs_to page customer (k, r) ∧
  ∀ k' r', convs !! k' = Some r' → belongs_to page customer (k', r') → k' = k.

(** The conversations table as the handlers keep it: no row under the empty
    identifier, and at most one row a pair. *)
Definition well_keyed (convs : gmap string Conversation) : Prop :=
  convs !! "" = None ∧ ∀ page customer, pair_unique page customer convs.

(** Scenario A: the message m1, "Hi", of the new customer c1 to the page p1. *)
Definition eventA : WebhookEvent :=
  mkEvent (Some "c1") (Some "p1") (Some 1700000000000)
    (Some (mkMessagePart (Some "m1") (Some "Hi"))) None None.

Definition bodyA : Body := mkBody "page" (Some [mkEntry (Some [eventA])]).

(** A later message of the same customer to the same page: m2, "Hello". *)
Definition eventA2 : WebhookEvent :=
  mkEvent (Some "c1") (Some "p1") (Some 1700000060000)
    (Some (mkMessagePart (Some "m2") (Some "Hello"))) None None.

Definition bodyA2 : Body := mkBody "page" (Some [mkEntry (Some [eventA2])]).

(** Scenario A's message with the last time value that a Date holds, the
    year 275760. *)
Definition eventA_far : WebhookEvent :=
  mkEvent (Some "c1") (Some "p1") (Some 8640000000000000)
    (Some (mkMessagePart (Some "m1") (Some "Hi"))) None None.

Definition bodyA_far : Body := mkBody "page" (Some [mkEntry (Some [eventA_far])]).

(** The rows that scenario A is to leave in the store. *)
Definition conversationA : Conversation :=
  mkConversation "p1_c1" "p1" "c1" "User c1" "" "Hi" 1700000000000 OPEN None 1.

Definition messageA : Message :=
  mkMessage "m1" "p1_c1" "c1" "User c1" "Hi" 1700000000000 true false.

Definition storeA : Store := mkStore {[ "p1_c1" := conversationA ]} {[ "m1" := messageA ]}.

(** The parts of a handler's result. *)
Definition store_of {A B} (r : A * Store * B) : Store := r.1.2.
Definition log_of {A B} (r : A * B * Log) : Log := r.2.
Definition answer_of {B C} (r : Z * B * C) : Z := r.1.1.

(** The pair's only row is the one under the pair's identifier, and is OPEN. *)
Definition first_contact_row (page customer : string) (st : Store) : Prop :=
  ∃ r,
    sole_row page customer (conversationIdOf page customer) r (conversations st) ∧
    conv_id r = conversationIdOf page customer ∧ status r = OPEN.

(** Scenario A's store with a second customer, c2, whose message m2 is older. *)
Definition two_conversations : Store :=
  mkStore
    {[ "p1_c1" := conversationA;
       "p1_c2" := mkConversation "p1_c2" "p1" "c2" "User c2" "" "Yo" 1699999999000 OPEN None 1 ]}
    {[ "m1" := messageA;
       "m2" := mkMessage "m2" "p1_c2" "c2" "User c2" "Yo" 1699999999000 true false ]}.


(** Scenario C: a delivery receipt for the identifiers [ids]. *)
Definition delivery_of (ids : list string) : Body :=
  mkBody "page"
    (Some [mkEntry (Some [mkEvent (Some "c1") (Some "p1") (Some 1700000005000) None
                            (Some (mkDeliveryPart (Some ids))) None])]).

Definition LOOP_ERROR : LogEntry := mkLog Error "Error processing webhook event".

(** The entries on which a turn of the loop throws: no [messaging] array,
    or a first event without [sender] or without [recipient]. *)
Definition raises_in_loop (en : Entry) : bool :=
  match messaging en with
  | None => true
  | Some [] => false
  | Some (ev :: _) =>
      match sender ev, recipient ev with
      | Some _, Some _ => false
      | _, _ => true
      end
  end.

(** The entries on which a handler throws inside its own try block, with
    the line its catch block logs: a text message whose timestamp is no
    valid time, and a read receipt whose watermark is no valid time. *)
Definition raises_in_handler (en : Entry) : option LogEntry :=
  match messaging en with
  | Some (ev :: _) =>
      match sender ev, recipient ev with
      | Some _, Some _ =>
          match message ev, delivery ev, read ev with
          | Some m, _, _ =>
              match truthy_text (msg_text m), toISOString (ev_timestamp ev) with
              | Some _, None => Some (mkLog Error "Error handling message")
              | _, _ => None
              end
          | None, None, Some r =>
              match toISOString (watermark r) with
              | None => Some (mkLog Error "Error updating read status")
              | Some _ => None
              end
          | _, _, _ => None
          end
      | _, _ => None
      end
  | _ => None
  end.

(** A text message whose event lacks the [sender] object. *)
Definition event_without_sender : WebhookEvent :=
  mkEvent None (Some "p1") (Some 1700000000000)
    (Some (mkMessagePart (Some "m0") (Some "Hey"))) None None.

(** The outcome [r] with one more line at the head of its log. *)
Definition prepend (line : LogEntry) (r : Outcome) : Outcome :=
  (r.1.1, r.1.2, line :: r.2).

(** What is left of a payload when each entry keeps its first event only. *)
Definition first_event_only (en : Entry) : Entry :=
  mkEntry (take 1 <$> messaging en).

Definition first_events (body : Body) : Body :=
  mkBody (object body)
    (fmap (M := option) (fmap (M := list) first_event_only) (entry body)).

(** One request body, and the clock and generator readings of two calls. *)
Definition hello_body : SendBody :=
  mkSendBody (Some "p1_c1") (Some "Hello") (Some "a1") (Some "Ann").

Definition first_call : Env := mkEnv 1700000100000 "k3j2h1g0f" 1700000100000.
Definition second_call : Env := mkEnv 1700000100250 "z9y8x7w6v" 1700000100250.

Definition HOUR_MS : Z := 60 * 60 * 1000.

(** The tag that goes with a policy. *)
Definition tag_of (policy : WindowPolicy) : option string :=
  match policy with
  | RESTRICTED => Some "HUMAN_AGENT"
  | ALLOWED => None
  end.

(** The identifier of the optimistic message of a call. *)
Definition tempId_of (env : Env) : string :=
  "temp-" +:+ pretty (date_now env) +:+ "-" +:+ random_suffix env.

(** The chat window on conversation p1_c1, rendered ninety seconds after its
    last message, and rendered twenty-five hours after it. *)
Definition agent_props : Props :=
  mkProps conversationA [mkPage "p1" "EAAB-token"] [] (Some (mkUser "a1" "Ann"))
    1700000090000.

Definition late_props : Props :=
  mkProps conversationA [mkPage "p1" "EAAB-token"] [] (Some (mkUser "a1" "Ann"))
    1700090000000.

(** The same window rendered one hour after the last message and left
    open, the conversation unchanged, and a call made in it forty-eight
    hours after that message. *)
Definition stale_props : Props :=
  mkProps conversationA [mkPage "p1" "EAAB-token"] [] (Some (mkUser "a1" "Ann"))
    (1700000000000 + HOUR_MS).

Definition two_days_later : Env :=
  mkEnv (1700000000000 + 48 * HOUR_MS) "k3j2h1g0f" (1700000000000 + 48 * HOUR_MS).

(** The agent has typed a greeting; the view is empty. *)
Definition typed_hello : ChatState := mkChat [] "Hello " false None false false ∅.

Definition optimistic_hello : Message :=
  mkMessage "temp-1700000100000-k3j2h1g0f" "p1_c1" "a1" "Ann" "Hello" 1700000100000
    false true.

(** The platform's rejection of a send outside of the window. *)
Definition window_closed : SendError :=
  mkSendError (Some 10900) (Some "This message is sent outside of allowed window.").

(** ** api.js: the read routes *)

(** The rows of a table, without their keys. *)
Definition rows {A} (m : gmap string A) : list A := (map_to_list m).*2.

(** [.order('lastTimestamp', { ascending: false })] *)
Definition newest_first (a b : Conversation) : Prop := lastTimestamp b ≤ lastTimestamp a.

Global Instance newest_first_dec : RelDecision newest_first.
Proof. intros a b. unfold newest_first. apply _. Defined.

Global Instance by_time_total : Total by_time.
Proof. intros a b. unfold by_time. lia. Qed.

Global Instance by_time_trans : Transitive by_time.
Proof. intros a b c. unfold by_time. lia. Qed.

Global Instance newest_first_total : Total newest_first.
Proof. intros a b. unfold newest_first. lia. Qed.

Global Instance newest_first_trans : Transitive newest_first.
Proof. intros a b c. unfold newest_first. lia. Qed.

(** [.select('*').eq('pageId', pg).order('lastTimestamp', descending).limit(n)].
    The order among rows of one lastTimestamp is the store's to choose. *)
Definition conversations_of_page (pg : string) (n : nat) (st : Store) : list Conversation :=
  take n (merge_sort newest_first (filter (λ r, pageId r = pg) (rows (conversations st)))).

Inductive SyncResponse :=
  | SyncJson (found : list Conversation)
  | SyncStatus400 (e : string).

(** POST /sync-conversations: [limit] is absent or a natural number. *)
Definition sync_conversations (page : option string) (limit : option nat) (st : Store)
    : SyncResponse :=
  match truthy_text page with
  | None => SyncStatus400 "pageId is required"
  | Some pg => SyncJson (conversations_of_page pg (default 5%nat limit) st)
  end.

(** POST /sync-full-history *)
Definition sync_full_history (page : option string) (limit : option nat) (st : Store)
    : SyncResponse :=
  match truthy_text page with
  | None => SyncStatus400 "pageId is required"
  | Some pg => SyncJson (conversations_of_page pg (default 50%nat limit) st)
  end.

(** GET /messages/:conversationId:
    [.select('*').eq('conversationId', c).order('timestamp', ascending)] *)
Definition get_messages (conv : string) (st : Store) : list Message :=
  merge_sort by_time (filter (λ m, conversationId m = conv) (rows (messages st))).

(** ** Vocabulary of the further properties *)

(** A stored message is kept: it is still there, as it was or marked read. *)
Definition messages_kept (st st' : Store) : Prop :=
  ∀ k m, messages st !! k = Some m →
    messages st' !! k = Some m ∨ messages st' !! k = Some (mark_read m).

(** A stored conversation is kept: its identifier still names a row. *)
Definition conversations_kept (st st' : Store) : Prop :=
  ∀ k, is_Some (conversations st !! k) → is_Some (conversations st' !! k).

(** Each message is stored under its own identifier and names a stored
    conversation. *)
Definition referential (st : Store) : Prop :=
  ∀ k m, messages st !! k = Some m →
    msg_id m = k ∧ is_Some (conversations st !! conversationId m).

(** The entry of one text message of [customer] to [page]: its time, its
    identifier if any, and its text. *)
Definition text_entry (page customer : string) (x : Z * option string * string) : Entry :=
  mkEntry (Some [mkEvent (Some customer) (Some page) (Some x.1.1)
                   (Some (mkMessagePart x.1.2 (Some x.2))) None None]).

(** The string holds an underscore. *)
Fixpoint has_underscore (s : string) : bool :=
  match s with
  | EmptyString => false
  | String a s' => bool_decide (String a "" = "_") || has_underscore s'
  end.

(** The string of the given bytes. *)
Definition utf8 (bytes : list N) : string :=
  String.string_of_list_ascii (Ascii.ascii_of_N <$> bytes).

(** The white space characters, one by one: tabulation, line feed, vertical
    tabulation, form feed, carriage return, space, U+00A0, U+1680, U+2000
    to U+200A, U+2028, U+2029, U+202F, U+205F, U+3000 and U+FEFF. *)
Definition white_space : list string :=
  utf8 <$> [[9]; [10]; [11]; [12]; [13]; [32]; [194; 160]; [225; 154; 128];
            [226; 128; 128]; [226; 128; 129]; [226; 128; 130]; [226; 128; 131];
            [226; 128; 132]; [226; 128; 133]; [226; 128; 134]; [226; 128; 135];
            [226; 128; 136]; [226; 128; 137]; [226; 128; 138]; [226; 128; 168];
            [226; 128; 169]; [226; 128; 175]; [226; 129; 159]; [227; 128; 128];
            [239; 187; 191]]%N.

Definition NBSP : string := utf8 [194; 160]%N.
Definition EM_SPACE : string := utf8 [226; 128; 131]%N.

(** The chat window on conversation p1_c1 with one approved link, and the
    state in which the agent has typed [txt]. *)
Definition link_props : Props :=
  mkProps conversationA [mkPage "p1" "EAAB-token"] ["https://shop.example/returns"]
    (Some (mkUser "a1" "Ann")) 1700000090000.

Definition typed (txt : string) : ChatState := mkChat [] txt false None false false ∅.

(** The strings one after the other. *)
Definition join (ws : list string) : string := foldr String.append "" ws.

(** The string holds a white space character. *)
Fixpoint has_space (s : string) : bool :=
  match s with
  | EmptyString => false
  | String _ s' => negb (Nat.eqb (space_width s) 0) || has_space s'
  end.

(** The string ends here, or goes on with a white space character. *)
Definition breaks (s : string) : Prop := s = "" ∨ space_width s ≠ 0%nat.

(** Printable characters of ASCII only, the space apart. *)
Fixpoint plain (p : string) : bool :=
  match p with
  | EmptyString => true
  | String a p' => (33 <=? code a)%N && (code a <? 128)%N && plain p'
  end.

(** A byte that continues a character of several bytes. *)
Definition continuation (b : N) : Prop := (128 ≤ b ≤ 191)%N.

(** The conditions on bytes as propositions. *)
Ltac to_prop H :=
  unfold space1, space2, space3 in H;
  repeat first [rewrite orb_true_iff in H | rewrite andb_true_iff in H
               | rewrite N.eqb_eq in H | rewrite N.leb_le in H].

(** The white space character of the given bytes is a witness. *)
Ltac white bs :=
  exists (utf8 bs);
  split; [apply (bool_decide_unpack _); by vm_compute|];
  split; [done|]; simpl; by rewrite ?bool_decide_eq_true_2.

(** * Properties *)

(** ** The select of handleMessage *)

Section select.
Variables page customer : string.
Implicit Types convs : gmap string Conversation.

Lemma select_sole_row k r convs :
  sole_row page customer k r convs →
  select_conversation page customer convs = Some k.
Proof.
  intros (Hk & Hb & Hu). unfold select_conversation.
  assert (filter (belongs_to page customer) convs = {[k := r]}) as ->.
  { apply map_eq. intros j. apply option_eq. intros x.
    rewrite map_lookup_filter_Some, lookup_singleton_Some. split.
    - intros [Hj Hbj]. pose proof (Hu _ _ Hj Hbj) as ->. split; congruence.
    - intros [<- <-]. done. }
  by rewrite map_to_list_singleton.
Qed.

Lemma select_Some_sole_row k convs :
  select_conversation page customer convs = Some k →
  ∃ r, sole_row page customer k r convs.
Proof.
  unfold select_conversation. intros H.
  destruct (map_to_list (filter (belongs_to page customer) convs))
    as [|[k0 r] [|? ?]] eqn:E; simplify_eq.
  assert (filter (belongs_to page customer) convs = {[k := r]}) as Hf.
  { rewrite <- (list_to_map_to_list (filter _ convs)), E. done. }
  exists r. split_and!.
  - eapply (map_lookup_filter_Some_1_1 (belongs_to page customer)).
    rewrite Hf. apply lookup_singleton_eq.
  - eapply (map_lookup_filter_Some_1_2 (belongs_to page customer) convs k).
    rewrite Hf. apply lookup_singleton_eq.
  - intros k' r' Hk' Hb'.
    assert (filter (belongs_to page customer) convs !! k' = Some r') as Hl
      by by apply map_lookup_filter_Some.
    rewrite Hf in Hl. apply lookup_singleton_Some in Hl. by destruct Hl.
Qed.

Lemma select_absent convs :
  pair_absent page customer convs →
  select_conversation page customer convs = None.
Proof.
  intros Ha. unfold select_conversation.
  assert (filter (belongs_to page customer) convs = ∅) as ->.
  { apply map_empty. intros j. apply map_lookup_filter_None. right.
    intros x Hx. by apply Ha. }
  by rewrite map_to_list_empty.
Qed.

Lemma select_None_absent convs :
  pair_unique page customer convs →
  select_conversation page customer convs = None →
  pair_absent page customer convs.
Proof.
  intros Hu Hs k r Hk Hb.
  rewrite (select_sole_row k r) in Hs; [done|].
  split_and!; [done..|]. intros k' r' ? ?. by eapply Hu.
Qed.

(** The row that the creation branch upserts is then the pair's only row. *)
Lemma upsert_sole_row txt ts convs :
  storable ts = true →
  pair_absent page customer convs →
  sole_row page customer (conversationIdOf page customer)
    (new_conversation page customer txt ts)
    (upsert_conversation (new_conversation page customer txt ts) convs).
Proof.
  intros Hts Ha. unfold upsert_conversation. simpl. rewrite Hts. split_and!.
  - apply lookup_insert_eq.
  - done.
  - intros k' r' Hk' Hb'.
    destruct (decide (conversationIdOf page customer = k')) as [|Hne]; [done|].
    rewrite lookup_insert_ne in Hk' by done. by destruct (Ha _ _ Hk').
Qed.

End select.

(** ** handleMessage *)

Lemma truthy_text_Some s : s ≠ "" → truthy_text (Some s) = Some s.
Proof. by destruct s. Qed.

Section handleMessage.
Variables page customer txt : string.
Variable ts : Z.

Lemma handleMessage_text ev m st :
  truthy_text (msg_text m) = Some txt →
  toISOString (ev_timestamp ev) = Some ts →
  handleMessage ev m page customer st =
  handleMessage_after (select_conversation page customer (conversations st))
    (mid m) page customer txt ts st.
Proof. intros Ht Hts. unfold handleMessage. by rewrite Ht, Hts. Qed.

Lemma handleMessage_after_conversations ex key st :
  conversations (handleMessage_after ex key page customer txt ts st).1 =
  conversations (resolve_conversation ex page customer txt ts st).1.
Proof.
  unfold handleMessage_after, store_message.
  destruct (resolve_conversation _ _ _ _ _ _) as [st1 l1]. simpl.
  destruct key as [k|]; simpl; [|done].
  unfold insert_message. simpl.
  repeat case_match; by simplify_eq/=.
Qed.

(** A message that is already stored stays as it is. *)
Lemma handleMessage_after_known ex k st :
  is_Some (messages st !! k) →
  messages (handleMessage_after ex (Some k) page customer txt ts st).1 = messages st.
Proof.
  intros [m Hm]. unfold handleMessage_after, store_message, insert_message.
  destruct ex; simpl; destruct (storable ts); simpl; by rewrite ?Hm.
Qed.

Lemma handleMessage_after_no_id ex st :
  messages (handleMessage_after ex None page customer txt ts st).1 = messages st.
Proof. unfold handleMessage_after. by destruct ex. Qed.

(** A message that is not stored yet is inserted, as long as the select
    named a row that exists. *)
Lemma handleMessage_after_fresh ex k st :
  storable ts = true →
  messages st !! k = None →
  (∀ c, ex = Some c → c ≠ "" ∧ is_Some (conversations st !! c)) →
  messages (handleMessage_after ex (Some k) page customer txt ts st).1 =
  <[k := incoming_message k (conversation_of ex page customer) customer txt ts]>
    (messages st).
Proof.
  intros Hts Hk Hex. unfold handleMessage_after, store_message, insert_message.
  destruct ex as [c|]; simpl; rewrite Hts, Hk.
  - destruct (Hex c eq_refl) as [Hc [r Hr]].
    unfold conversation_of, update_incoming. rewrite (truthy_text_Some c Hc). simpl.
    by rewrite Hr.
  - unfold upsert_conversation. simpl. by rewrite Hts, lookup_insert_eq.
Qed.

Lemma handleMessage_after_stored ex k st :
  storable ts = true →
  (∀ c, ex = Some c → c ≠ "" ∧ is_Some (conversations st !! c)) →
  is_Some (messages (handleMessage_after ex (Some k) page customer txt ts st).1 !! k).
Proof.
  intros Hts Hex. destruct (messages st !! k) as [m|] eqn:Hk.
  - rewrite handleMessage_after_known by eauto. eauto.
  - rewrite handleMessage_after_fresh by done. rewrite lookup_insert_eq. eauto.
Qed.

End handleMessage.

Lemma alter_as_insert {A} (f : A → A) (k : string) (x : A) (m : gmap string A) :
  m !! k = Some x → alter f k m = <[k := f x]> m.
Proof.
  intros Hk. apply map_eq. intros j. destruct (decide (k = j)) as [<-|Hne].
  - by rewrite lookup_alter_eq, lookup_insert_eq, Hk.
  - by rewrite lookup_alter_ne, lookup_insert_ne.
Qed.

(** ** The shape of the conversations table is kept *)

Lemma conversationIdOf_nonempty page customer : conversationIdOf page customer ≠ "".
Proof. unfold conversationIdOf. by destruct page. Qed.

Lemma well_keyed_empty : well_keyed (conversations empty_store).
Proof.
  split; [done|]. intros page customer k1 k2 r1 r2 H1.
  simpl in H1. by rewrite lookup_empty in H1.
Qed.

Lemma well_keyed_alter (f : Conversation → Conversation) k convs :
  (∀ r, customerId (f r) = customerId r ∧ pageId (f r) = pageId r) →
  well_keyed convs → well_keyed (alter f k convs).
Proof.
  intros Hf [Hid Hu].
  assert (∀ j r', alter f k convs !! j = Some r' →
            ∃ r, convs !! j = Some r ∧
                 customerId r = customerId r' ∧ pageId r = pageId r') as Hback.
  { intros j r' Hj. destruct (decide (k = j)) as [<-|Hne].
    - rewrite lookup_alter_eq in Hj. destruct (convs !! k) as [r|]; [|done].
      injection Hj as <-. exists r. by destruct (Hf r) as [-> ->].
    - rewrite lookup_alter_ne in Hj by done. eauto. }
  split.
  - destruct (alter f k convs !! "") as [r'|] eqn:E; [|done].
    destruct (Hback _ _ E) as (r & Hr & _). by rewrite Hid in Hr.
  - intros page customer k1 k2 r1 r2 H1 H2 [Hc1 Hp1] [Hc2 Hp2]. simpl in *.
    destruct (Hback _ _ H1) as (q1 & Hq1 & Hqc1 & Hqp1).
    destruct (Hback _ _ H2) as (q2 & Hq2 & Hqc2 & Hqp2).
    apply (Hu page customer k1 k2 q1 q2); [done..| |]; split; simpl; congruence.
Qed.

Lemma well_keyed_upsert page customer txt ts convs :
  pair_absent page customer convs →
  well_keyed convs →
  well_keyed (upsert_conversation (new_conversation page customer txt ts) convs).
Proof.
  intros Ha Hw. unfold upsert_conversation. simpl.
  destruct (storable ts); [|done]. destruct Hw as [Hid Hu]. split.
  - rewrite lookup_insert_ne; [done|apply conversationIdOf_nonempty].
  - intros page' customer' k1 k2 r1 r2 H1 H2 B1 B2.
    apply lookup_insert_Some in H1 as [[<- <-]|[Hn1 H1]];
      apply lookup_insert_Some in H2 as [[<- <-]|[Hn2 H2]].
    + done.
    + destruct B1 as [<- <-]. by destruct (Ha _ _ H2).
    + destruct B2 as [<- <-]. by destruct (Ha _ _ H1).
    + by apply (Hu page' customer' k1 k2 r1 r2).
Qed.

Lemma handleMessage_well_keyed ev m page customer st :
  well_keyed (conversations st) →
  well_keyed (conversations (handleMessage ev m page customer st).1).
Proof.
  intros Hw. unfold handleMessage.
  destruct (truthy_text (msg_text m)) as [txt|]; [|done].
  destruct (toISOString (ev_timestamp ev)) as [ts|]; [|done].
  rewrite handleMessage_after_conversations.
  destruct (select_conversation page customer (conversations st)) as [k|] eqn:Hs; simpl.
  - done.
  - apply well_keyed_upsert; [|done].
    apply select_None_absent; [|done]. apply Hw.
Qed.

Lemma process_entry_well_keyed en st :
  well_keyed (conversations st) →
  well_keyed (conversations (store_of (process_entry en st))).
Proof.
  intros Hw. unfold process_entry, store_of.
  destruct (messaging en) as [[|ev evs]|]; [done..| |done].
  destruct (sender ev) as [a|], (recipient ev) as [b|]; [|done..].
  destruct (message ev) as [m|].
  - pose proof (handleMessage_well_keyed ev m b a st Hw) as H.
    by destruct (handleMessage ev m b a st).
  - destruct (delivery ev) as [d|].
    + unfold handleDelivery. by destruct (mids d) as [[|i ids]|].
    + destruct (read ev) as [r|]; [|done].
      unfold handleRead. by destruct (toISOString (watermark r)).
Qed.

Lemma process_entries_well_keyed es st :
  well_keyed (conversations st) →
  well_keyed (conversations (store_of (process_entries es st))).
Proof.
  revert st. induction es as [|en es IH]; intros st Hw; [done|].
  cbn [process_entries].
  pose proof (process_entry_well_keyed en st Hw) as H1.
  destruct (process_entry en st) as [[[|] st'] l]; [|done].
  pose proof (IH st' H1) as H2.
  by destruct (process_entries es st') as [[c st''] l'].
Qed.

(** Every payload leaves a well-keyed conversations table well-keyed; the
    empty store is, so each store that the webhook builds from it is. *)
Lemma post_well_keyed body st :
  well_keyed (conversations st) →
  well_keyed (conversations (store_of (post body st))).
Proof.
  intros Hw. unfold post. case_bool_decide; [|done].
  destruct (entry body) as [es|]; [|done].
  pose proof (process_entries_well_keyed es st Hw) as Hes.
  by destruct (process_entries es st) as [[[|] st'] l].
Qed.

(** ** Scenarios of the specification *)

Lemma scenarioA_store : store_of (post bodyA empty_store) = storeA.
Proof. vm_compute. reflexivity. Qed.

(** ** Redelivery of an inbound message *)

Lemma store_eta st : mkStore (conversations st) (messages st) = st.
Proof. by destruct st. Qed.

Section replay.
Variables page customer txt : string.
Variable ts : Z.

Lemma store_message_conversations ex key st :
  conversations (store_message ex key page customer txt ts st).1 = conversations st.
Proof.
  unfold store_message. destruct key as [k|]; simpl; [|done].
  destruct (storable ts); [|done]. unfold insert_message.
  by repeat case_match; simplify_eq/=.
Qed.

(** The insert of the message, taken or refused, is refused when repeated. *)
Lemma store_message_twice ex key st :
  (store_message ex key page customer txt ts
     (store_message ex key page customer txt ts st).1).1 =
  (store_message ex key page customer txt ts st).1.
Proof.
  unfold store_message. destruct key as [k|]; simpl; [|done].
  destruct (storable ts) eqn:Hts; [|done].
  unfold insert_message. simpl.
  destruct (messages st !! k) as [m0|] eqn:Hk; simpl; [by rewrite Hk|].
  destruct (conversations st !! conversation_of ex page customer) as [c0|] eqn:Hc; simpl.
  - by rewrite lookup_insert_eq.
  - by rewrite Hk, Hc.
Qed.

(** With a storable timestamp and its conversation in place, the message is
    stored once the insert has been tried. *)
Lemma store_message_stored ex k st :
  storable ts = true →
  is_Some (conversations st !! conversation_of ex page customer) →
  is_Some (messages (store_message ex (Some k) page customer txt ts st).1 !! k).
Proof.
  intros Hts [c0 Hc]. unfold store_message, insert_message. simpl. rewrite Hts.
  destruct (messages st !! k) as [m0|] eqn:Hk; simpl; [by rewrite Hk|].
  rewrite Hc. simpl. rewrite lookup_insert_eq. eauto.
Qed.

Lemma store_message_refused ex k st :
  is_Some (messages st !! k) →
  (store_message ex (Some k) page customer txt ts st).1 = st.
Proof.
  intros [m0 Hk]. unfold store_message, insert_message. simpl.
  destruct (storable ts); [|done]. by rewrite Hk.
Qed.

Lemma handleMessage_after_unfold ex key st :
  (handleMessage_after ex key page customer txt ts st).1 =
  (store_message ex key page customer txt ts
     (resolve_conversation ex page customer txt ts st).1).1.
Proof.
  unfold handleMessage_after.
  destruct (resolve_conversation ex page customer txt ts st) as [st1 l1]. simpl.
  by destruct (store_message ex key page customer txt ts st1).
Qed.

Lemma handleMessage_after_replay key st :
  let st1 :=
    (handleMessage_after (select_conversation page customer (conversations st))
       key page customer txt ts st).1 in
  (handleMessage_after (select_conversation page customer (conversations st1))
     key page customer txt ts st1).1 = st1.
Proof.
  intros st1. subst st1. rewrite !handleMessage_after_unfold.
  destruct (select_conversation page customer (conversations st)) as [k0|] eqn:Hs.
  - simpl. unfold update_incoming. rewrite store_eta.
    rewrite store_message_conversations, Hs. simpl.
    unfold update_incoming. rewrite store_eta. apply store_message_twice.
  - simpl. unfold upsert_conversation. simpl.
    destruct (storable ts) eqn:Hts.
    + set (st' := mkStore (<[conversationIdOf page customer :=
                              new_conversation page customer txt ts]> (conversations st))
                    (messages st)).
      set (S1 := (store_message None key page customer txt ts st').1).
      assert (conversations S1 = conversations st') as Hc
        by apply store_message_conversations.
      destruct (select_conversation page customer (conversations S1)) as [k1|] eqn:Hs1;
        simpl.
      * unfold update_incoming. rewrite store_eta.
        destruct key as [k|]; [|done].
        apply store_message_refused.
        apply store_message_stored; [done|].
        unfold conversation_of. simpl. rewrite lookup_insert_eq. eauto.
      * assert (upsert_conversation (new_conversation page customer txt ts)
                  (conversations S1) = conversations S1) as ->.
        { rewrite Hc. unfold upsert_conversation. simpl.
          by rewrite Hts, insert_insert_eq. }
        rewrite store_eta.
        destruct key as [k|]; [|done].
        apply store_message_refused.
        apply store_message_stored; [done|].
        unfold conversation_of. simpl. rewrite lookup_insert_eq. eauto.
    + rewrite store_eta, store_message_conversations, Hs. simpl.
      unfold upsert_conversation. simpl. rewrite Hts, store_eta.
      apply store_message_twice.
Qed.

Lemma handleMessage_after_found k key st :
  conversations (handleMessage_after (Some k) key page customer txt ts st).1 =
  conversations st.
Proof. by rewrite handleMessage_after_conversations. Qed.
End replay.

Lemma handleMessage_found ev m page customer st :
  is_Some (select_conversation page customer (conversations st)) →
  conversations (handleMessage ev m page customer st).1 = conversations st.
Proof.
  intros [k Hk]. unfold handleMessage.
  destruct (truthy_text (msg_text m)) as [txt|]; [|done].
  destruct (toISOString (ev_timestamp ev)) as [ts|]; [|done].
  rewrite Hk. apply handleMessage_after_found.
Qed.

(** C1 on the code. A replay changes nothing: handling the same event a
    second time leaves the store that handling it once leaves, so there is
    no second message row and no further change of the conversation;
    scenario B ends in scenario A's store. But the unread counter of a
    conversation that the select finds is not raised at all: the update
    that is to raise it is refused, and every conversation row is left as
    it was. After scenario A the message m2, delivered twice, is stored
    once while the conversation p1_c1 keeps unread 1 and last message
    "Hi". *)
Theorem handleMessage_replay page customer ev m st :
  (handleMessage ev m page customer (handleMessage ev m page customer st).1).1 =
    (handleMessage ev m page customer st).1 ∧
  (is_Some (select_conversation page customer (conversations st)) →
   conversations (handleMessage ev m page customer st).1 = conversations st) ∧
  store_of (post bodyA (store_of (post bodyA empty_store))) = storeA ∧
  (let after := store_of (post bodyA2 (store_of (post bodyA2 storeA))) in
   after = store_of (post bodyA2 storeA) ∧
   conversations after = conversations storeA ∧
   unreadCount <$> conversations after !! "p1_c1" = Some 1 ∧
   lastMessage <$> conversations after !! "p1_c1" = Some "Hi" ∧
   messages after !! "m2" =
     Some (mkMessage "m2" "p1_c1" "c1" "User c1" "Hello" 1700000060000 true false) ∧
   size (messages after) = 2%nat).
Proof.
  split_and!.
  - unfold handleMessage at 2 3.
    destruct (truthy_text (msg_text m)) as [txt|] eqn:Ht.
    + destruct (toISOString (ev_timestamp ev)) as [ts|] eqn:Hts.
      * rewrite (handleMessage_text page customer txt ts) by done.
        apply handleMessage_after_replay.
      * simpl. unfold handleMessage. by rewrite Ht, Hts.
    + simpl. unfold handleMessage. by rewrite Ht.
  - apply handleMessage_found.
  - by vm_compute.
  - vm_compute. by split_and!.
Qed.

Lemma handleMessage_replay_witness :
  conversations (handleMessage eventA2 (mkMessagePart (Some "m2") (Some "Hello"))
                   "p1" "c1" storeA).1 = conversations storeA.
Proof.
  refine (proj1 (proj2 (handleMessage_replay "p1" "c1" eventA2
                          (mkMessagePart (Some "m2") (Some "Hello")) storeA)) _).
  vm_compute. eexists. reflexivity.
Defined.

(** ** First contact *)

(** C3 as stated fails: the message m1, "Hi", of the new customer c1 to the
    page p1 creates no conversation and no message when the store does not
    take its timestamp. [toISOString] gives a string, so nothing is thrown;
    the two writes are refused, the creation of the conversation is logged
    all the same and the refusal of the message is logged as an error. *)
Lemma first_contact_out_of_range :
  toISOString (ev_timestamp eventA_far) = Some 8640000000000000 ∧
  pair_absent "p1" "c1" (conversations empty_store) ∧
  store_of (post bodyA_far empty_store) = empty_store ∧
  conversations (store_of (post bodyA_far empty_store)) !! "p1_c1" = None ∧
  messages (store_of (post bodyA_far empty_store)) !! "m1" = None ∧
  log_of (post bodyA_far empty_store) =
    [mkLog Info "New conversation created"; mkLog Error "Error storing message"].
Proof.
  split_and!; by vm_compute.
Qed.

(** C3, as amended. From a store in which the pair has no conversation, a text message
    with a storable timestamp leaves the pair exactly one conversation,
    under the identifier made of the page, an underscore and the customer,
    OPEN, with unread 1 and the text as last message, and, when its
    identifier is not taken, the message under that conversation. A second
    event of the pair leaves exactly one conversation under the same
    identifier, whether it is handled after the first or both selects ran
    before either write: the second creation write, an upsert, replaces the
    row of the first or is refused. Scenario A gives the conversation p1_c1
    and the message m1. *)
Theorem first_contact_converges page customer st ev1 m1 txt1 ts1 ev2 m2 txt2 ts2 :
  pair_absent page customer (conversations st) →
  truthy_text (msg_text m1) = Some txt1 →
  toISOString (ev_timestamp ev1) = Some ts1 →
  storable ts1 = true →
  let first := (handleMessage ev1 m1 page customer st).1 in
  let in_turn := (handleMessage ev2 m2 page customer first).1 in
  let both_saw_none :=
    (handleMessage_after None (mid m2) page customer txt2 ts2
       (handleMessage_after None (mid m1) page customer txt1 ts1 st).1).1 in
  (∃ r,
     sole_row page customer (conversationIdOf page customer) r (conversations first) ∧
     conv_id r = conversationIdOf page customer ∧ status r = OPEN ∧
     unreadCount r = 1 ∧ lastMessage r = txt1 ∧ lastTimestamp r = ts1) ∧
  (∀ k, mid m1 = Some k → messages st !! k = None →
     messages first !! k =
       Some (mkMessage k (conversationIdOf page customer) customer (userName customer)
               txt1 ts1 true false)) ∧
  first_contact_row page customer in_turn ∧
  first_contact_row page customer both_saw_none ∧
  store_of (post bodyA empty_store) = storeA.
Proof.
  intros Ha Ht1 Hts1 Hs1 first in_turn both_saw_none.
  assert (sole_row page customer (conversationIdOf page customer)
            (new_conversation page customer txt1 ts1) (conversations first)) as H1.
  { subst first. rewrite (handleMessage_text _ _ txt1 ts1) by done.
    rewrite (select_absent _ _ _ Ha), handleMessage_after_conversations. simpl.
    by apply upsert_sole_row. }
  split_and!.
  - by eexists.
  - intros k Hk Hfresh. subst first.
    rewrite (handleMessage_text _ _ txt1 ts1) by done.
    rewrite (select_absent _ _ _ Ha), Hk.
    rewrite handleMessage_after_fresh by done. apply lookup_insert_eq.
  - subst in_turn. exists (new_conversation page customer txt1 ts1).
    rewrite handleMessage_found; [done|].
    rewrite (select_sole_row _ _ _ _ _ H1). eauto.
  - subst both_saw_none. unfold first_contact_row.
    rewrite handleMessage_after_conversations. simpl.
    rewrite handleMessage_after_conversations. simpl.
    unfold upsert_conversation. simpl. rewrite Hs1.
    destruct (storable ts2) eqn:Hs2.
    + exists (new_conversation page customer txt2 ts2).
      split_and!; [|done..]. rewrite insert_insert_eq.
      pose proof (upsert_sole_row page customer txt2 ts2 _ Hs2 Ha) as H2.
      unfold upsert_conversation in H2. simpl in H2. by rewrite Hs2 in H2.
    + exists (new_conversation page customer txt1 ts1).
      split_and!; [|done..].
      pose proof (upsert_sole_row page customer txt1 ts1 _ Hs1 Ha) as H2.
      unfold upsert_conversation in H2. simpl in H2. by rewrite Hs1 in H2.
  - apply scenarioA_store.
Qed.

Lemma first_contact_converges_witness :
  first_contact_row "p1" "c1"
    (handleMessage eventA (mkMessagePart (Some "m2") (Some "Hello")) "p1" "c1"
       (handleMessage eventA (mkMessagePart (Some "m1") (Some "Hi")) "p1" "c1"
          empty_store).1).1.
Proof.
  refine (proj1 (proj2 (proj2
    (first_contact_converges "p1" "c1" empty_store
       eventA (mkMessagePart (Some "m1") (Some "Hi")) "Hi" 1700000000000
       eventA (mkMessagePart (Some "m2") (Some "Hello")) "Hello" 1700000000000
       _ _ _ _)))).
  - intros k r H. simpl in H. rewrite lookup_empty in H. discriminate.
  - reflexivity.
  - reflexivity.
  - reflexivity.
Defined.

(** ** Receipts *)

Lemma lookup_update_read_in ids msgs k :
  update_read_in ids msgs !! k =
  (λ m, if bool_decide (k ∈ ids) then mark_read m else m) <$> msgs !! k.
Proof.
  unfold update_read_in. rewrite map_lookup_imap.
  by destruct (msgs !! k).
Qed.

Lemma lookup_update_read_lte w msgs k :
  update_read_lte w msgs !! k =
  (λ m, if bool_decide (timestamp m ≤ w) then mark_read m else m) <$> msgs !! k.
Proof. unfold update_read_lte. by rewrite lookup_fmap. Qed.

Lemma update_read_in_unknown ids msgs :
  (∀ k, k ∈ ids → msgs !! k = None) → update_read_in ids msgs = msgs.
Proof.
  intros Hun. apply map_eq. intros k. rewrite lookup_update_read_in.
  destruct (msgs !! k) as [m|] eqn:Hk; [|done]. simpl.
  case_bool_decide as Hin; [|done].
  rewrite (Hun k Hin) in Hk. discriminate.
Qed.




(** C8. A delivery receipt leaves the conversations alone, marks as read
    each stored message whose identifier is in the list, leaves every other
    message as it was, and logs no error; an identifier that names no
    stored message changes nothing. In scenario C the receipt for m1 sets
    its read flag, and the receipt for zzz leaves the store as it was. *)
Theorem handleDelivery_marks_listed d ids st :
  mids d = Some ids →
  let st' := (handleDelivery d st).1 in
  conversations st' = conversations st ∧
  (∀ k, k ∈ ids → messages st' !! k = mark_read <$> messages st !! k) ∧
  (∀ k, k ∉ ids → messages st' !! k = messages st !! k) ∧
  ((∀ k, k ∈ ids → messages st !! k = None) → st' = st) ∧
  existsb is_error (handleDelivery d st).2 = false ∧
  isRead <$> messages (store_of (post (delivery_of ["m1"]) storeA)) !! "m1" = Some true ∧
  post (delivery_of ["zzz"]) storeA =
    (EVENT_RECEIVED, storeA, [mkLog Info "Messages marked as delivered"]).
Proof.
  intros Hd st'. subst st'.
  assert (∀ k, k ∉ ids → update_read_in ids (messages st) !! k = messages st !! k)
    as Hother.
  { intros k Hk. rewrite lookup_update_read_in.
    rewrite bool_decide_eq_false_2 by done. by destruct (messages st !! k). }
  assert (∀ k, k ∈ ids →
            update_read_in ids (messages st) !! k = mark_read <$> messages st !! k)
    as Hlisted.
  { intros k Hk. rewrite lookup_update_read_in. by rewrite bool_decide_eq_true_2. }
  unfold handleDelivery. rewrite Hd.
  split_and!.
  - by destruct ids.
  - intros k Hk. destruct ids as [|i ids]; [by apply elem_of_nil in Hk|].
    by apply Hlisted.
  - intros k Hk. destruct ids as [|i ids]; [done|]. by apply Hother.
  - intros Hun. destruct ids as [|i ids]; [done|]. simpl.
    rewrite update_read_in_unknown by done. by destruct st.
  - by destruct ids.
  - by vm_compute.
  - by vm_compute.
Qed.

Lemma handleDelivery_marks_listed_witness :
  conversations (handleDelivery (mkDeliveryPart (Some ["m1"])) storeA).1 =
  conversations storeA.
Proof.
  apply (handleDelivery_marks_listed (mkDeliveryPart (Some ["m1"])) ["m1"] storeA).
  reflexivity.
Defined.

(** ** router.post *)

Lemma process_entry_raises en st :
  raises_in_loop en = true → process_entry en st = (Thrown, st, []).
Proof.
  unfold raises_in_loop, process_entry.
  destruct (messaging en) as [[|ev evs]|]; [done| |done].
  by destruct (sender ev), (recipient ev).
Qed.

Lemma process_entry_handler_raises en line st :
  raises_in_handler en = Some line → process_entry en st = (Normal, st, [line]).
Proof.
  unfold raises_in_handler, process_entry, handleMessage, handleRead.
  destruct (messaging en) as [[|ev evs]|]; [done| |done].
  destruct (sender ev), (recipient ev); [|done..].
  destruct (message ev) as [m|].
  - destruct (truthy_text (msg_text m)); [|done].
    destruct (toISOString (ev_timestamp ev)); [done|]. by intros [= <-].
  - destruct (delivery ev); [done|]. destruct (read ev) as [r|]; [|done].
    destruct (toISOString (watermark r)); [done|]. by intros [= <-].
Qed.

Lemma process_entries_app es1 es2 st :
  process_entries (es1 ++ es2) st =
  match process_entries es1 st with
  | (Normal, st1, l1) =>
      let '(c, st2, l2) := process_entries es2 st1 in (c, st2, l1 ++ l2)
  | thrown => thrown
  end.
Proof.
  revert st. induction es1 as [|en es1 IH]; intros st; simpl.
  - by destruct (process_entries es2 st) as [[c st2] l2].
  - destruct (process_entry en st) as [[[|] st'] l]; [|done].
    rewrite IH.
    destruct (process_entries es1 st') as [[[|] st1] l1]; [|done].
    destruct (process_entries es2 st1) as [[c st2] l2].
    by rewrite (assoc_L (++)).
Qed.

Lemma post_answer body st : answer_of (post body st) = EVENT_RECEIVED.
Proof.
  unfold post. case_bool_decide; [|done].
  destruct (entry body) as [es|]; [|done].
  by destruct (process_entries es st) as [[[|] st'] l].
Qed.

(** C5 as stated fails: an entry without a messaging array, and an event
    without a sender, are each logged as an error. *)
Lemma malformed_entry_logs_error :
  post (mkBody "page" (Some [mkEntry None])) empty_store =
    (EVENT_RECEIVED, empty_store, [LOOP_ERROR]) ∧
  post (mkBody "page" (Some [mkEntry (Some [event_without_sender])])) empty_store =
    (EVENT_RECEIVED, empty_store, [LOOP_ERROR]) ∧
  existsb is_error [LOOP_ERROR] = true.
Proof. by vm_compute. Qed.

(** C5, as amended. The handler answers every payload and lets no
    exception out. An entry whose messaging array is empty, and an event
    that is neither a message nor a receipt, produce nothing and log
    nothing; a message without text is dropped with a warning. An entry
    without a messaging array, an event without sender or recipient, and a
    payload without entries throw inside the handler: that is caught and
    logged as an error, and the entry changes no state. *)
Theorem post_answers_malformed body st :
  answer_of (post body st) = EVENT_RECEIVED ∧
  process_entry (mkEntry (Some [])) st = (Normal, st, []) ∧
  (∀ a b t rest,
     process_entry
       (mkEntry (Some (mkEvent (Some a) (Some b) t None None None :: rest))) st =
     (Normal, st, [])) ∧
  (∀ a b t k d r rest,
     process_entry
       (mkEntry (Some (mkEvent (Some a) (Some b) t (Some (mkMessagePart k None)) d r
                         :: rest))) st =
     (Normal, st, [mkLog Warn "Received non-text message, skipping"])) ∧
  (∀ en, raises_in_loop en = true →
     post (mkBody "page" (Some [en])) st = (EVENT_RECEIVED, st, [LOOP_ERROR])) ∧
  (object body = "page" → entry body = None →
     post body st = (EVENT_RECEIVED, st, [LOOP_ERROR])).
Proof.
  split_and!.
  - apply post_answer.
  - done.
  - done.
  - done.
  - intros en Hen. unfold post. simpl.
    by rewrite (process_entry_raises _ _ Hen).
  - intros Hobj Hentry. unfold post. by rewrite bool_decide_eq_true_2, Hentry.
Qed.

Lemma post_answers_malformed_witness :
  post (mkBody "page" (Some [mkEntry (Some [event_without_sender])])) empty_store =
    (EVENT_RECEIVED, empty_store, [LOOP_ERROR]).
Proof.
  apply (proj1 (proj2 (proj2 (proj2 (proj2
    (post_answers_malformed bodyA empty_store)))))).
  reflexivity.
Defined.

(** C6 as stated fails: the entry after a malformed one is not processed.
    Scenario A's entry alone creates the conversation; behind an entry
    without a messaging array it leaves the store empty. *)
Lemma entry_after_malformed_is_dropped :
  store_of (post (mkBody "page" (Some [mkEntry (Some [eventA])])) empty_store) = storeA ∧
  store_of (post (mkBody "page" (Some [mkEntry None; mkEntry (Some [eventA])]))
              empty_store) = empty_store.
Proof. by vm_compute. Qed.

(** C6, as amended. An exception raised inside a handler is caught by that
    handler: the entry changes nothing, one error line is logged, and the
    remaining entries are processed as they would be without it. An
    exception raised by the loop's own reads of a malformed entry ends the
    loop: the entries before it keep their effect, the error is logged, and
    the entries after it are not processed. *)
Theorem post_isolation es bad rest st st1 l1 :
  process_entries es st = (Normal, st1, l1) →
  (∀ line, raises_in_handler bad = Some line →
     process_entries (bad :: rest) st1 = prepend line (process_entries rest st1)) ∧
  (raises_in_loop bad = true →
     post (mkBody "page" (Some (es ++ bad :: rest))) st =
     (EVENT_RECEIVED, st1, l1 ++ [LOOP_ERROR])).
Proof.
  intros Hes. split.
  - intros line Hline. simpl.
    rewrite (process_entry_handler_raises _ _ _ Hline).
    by destruct (process_entries rest st1) as [[c st2] l2].
  - intros Hbad. unfold post. simpl.
    rewrite process_entries_app, Hes. simpl.
    rewrite (process_entry_raises _ _ Hbad). simpl.
    by rewrite (right_id_L [] (++)).
Qed.

Lemma post_isolation_witness :
  post (mkBody "page"
          (Some ([mkEntry (Some [eventA])] ++ mkEntry None :: [mkEntry (Some [eventA])])))
    empty_store =
  (EVENT_RECEIVED, storeA,
   [mkLog Info "New conversation created";
    mkLog Info "Message stored and pushed to clients (real-time)"] ++ [LOOP_ERROR]).
Proof.
  apply (post_isolation [mkEntry (Some [eventA])] (mkEntry None)
           [mkEntry (Some [eventA])] empty_store storeA).
  - vm_compute. reflexivity.
  - reflexivity.
Defined.

Lemma process_entry_first_event_only en st :
  process_entry (first_event_only en) st = process_entry en st.
Proof.
  unfold process_entry, first_event_only.
  by destruct (messaging en) as [[|ev evs]|].
Qed.

Lemma process_entries_first_event_only es st :
  process_entries (first_event_only <$> es) st = process_entries es st.
Proof.
  revert st. induction es as [|en es IH]; intros st; [done|].
  simpl. rewrite process_entry_first_event_only.
  destruct (process_entry en st) as [[[|] st'] l]; [|done].
  by rewrite IH.
Qed.

(** C10. A payload whose object is not "page" changes nothing and logs
    nothing; the handler's result depends on the first event of each entry
    only, so a second or later event of an entry changes nothing; the
    answer is 200 in every case. *)
Theorem post_reads_first_event_only body st :
  (object body ≠ "page" → post body st = (EVENT_RECEIVED, st, [])) ∧
  post (first_events body) st = post body st ∧
  answer_of (post body st) = EVENT_RECEIVED.
Proof.
  split_and!.
  - intros Hobj. unfold post. by rewrite bool_decide_eq_false_2.
  - unfold post. simpl. case_bool_decide; [|done].
    destruct (entry body) as [es|]; [|done]. simpl.
    by rewrite process_entries_first_event_only.
  - apply post_answer.
Qed.

Lemma post_reads_first_event_only_witness :
  post (mkBody "user" (Some [mkEntry (Some [eventA])])) empty_store =
  (EVENT_RECEIVED, empty_store, []).
Proof.
  apply (proj1 (post_reads_first_event_only
                  (mkBody "user" (Some [mkEntry (Some [eventA])])) empty_store)).
  simpl. discriminate.
Defined.

(** ** POST /send-message *)

(** C9 as stated fails: the same request body sent twice is stored as two
    rows, since each call makes up an identifier of its own. *)
Lemma send_message_twice_stores_two_rows :
  let once := store_of (send_message first_call hello_body storeA) in
  let twice := store_of (send_message second_call hello_body once) in
  size (messages storeA) = 1%nat ∧
  size (messages once) = 2%nat ∧
  size (messages twice) = 3%nat ∧
  twice ≠ once.
Proof.
  split_and!; [by vm_compute..|].
  intros H. apply (f_equal (λ s, size (messages s))) in H.
  vm_compute in H. discriminate.
Qed.

(** C9, as amended. A call with a conversation that exists and an
    identifier that is not taken stores the message as outgoing and read,
    under the identifier the call has made up, and sets the conversation's
    last message and last time. It is no idempotent insert: a second call
    with the same body stores a second row whenever its identifier differs
    from the first, and is answered with status 500, the store unchanged,
    when the identifier is the same. *)
Theorem send_message_records env env' body conv txt c st :
  truthy_text (sb_conversationId body) = Some conv →
  truthy_text (sb_text body) = Some txt →
  conversations st !! conv = Some c →
  let row := outgoing_message env conv txt (sb_senderId body) (sb_senderName body) in
  let row' := outgoing_message env' conv txt (sb_senderId body) (sb_senderName body) in
  messages st !! msg_id row = None →
  messages st !! msg_id row' = None →
  let st1 := store_of (send_message env body st) in
  (isIncoming row = false ∧ isRead row = true ∧ conversationId row = conv ∧
   text row = txt) ∧
  send_message env body st =
    (Json row, st1, [mkLog Info "Message sent and pushed to clients"]) ∧
  messages st1 = <[msg_id row := row]> (messages st) ∧
  conversations st1 = <[conv := touch_outgoing txt (date_new env) c]> (conversations st) ∧
  (msg_id row' ≠ msg_id row →
     messages (store_of (send_message env' body st1)) =
       <[msg_id row' := row']> (<[msg_id row := row]> (messages st)) ∧
     size (messages (store_of (send_message env' body st1))) =
       S (S (size (messages st)))) ∧
  (msg_id row' = msg_id row →
     send_message env' body st1 =
       (Status500, st1, [mkLog Error "Error sending message"])).
Proof.
  intros Hconv Htxt Hc row row' Hrow Hrow' st1.
  assert (send_message env body st =
            (Json row,
             mkStore (<[conv := touch_outgoing txt (date_new env) c]> (conversations st))
               (<[msg_id row := row]> (messages st)),
             [mkLog Info "Message sent and pushed to clients"])) as Hfirst.
  { unfold send_message. rewrite Hconv, Htxt. fold row.
    unfold insert_message. rewrite Hrow. simpl. rewrite Hc. simpl.
    by rewrite (alter_as_insert _ _ c). }
  assert (st1 =
            mkStore (<[conv := touch_outgoing txt (date_new env) c]> (conversations st))
              (<[msg_id row := row]> (messages st))) as Hst1.
  { subst st1. by rewrite Hfirst. }
  split; [done|]. split_and!.
  - by rewrite Hfirst, Hst1.
  - by rewrite Hst1.
  - by rewrite Hst1.
  - intros Hne.
    assert (messages (store_of (send_message env' body st1)) =
              <[msg_id row' := row']> (<[msg_id row := row]> (messages st))) as Hm.
    { unfold send_message. rewrite Hconv, Htxt. fold row'.
      unfold insert_message. rewrite Hst1. cbn [messages conversations].
      rewrite lookup_insert_ne by congruence. rewrite Hrow'.
      change (conversationId row') with conv.
      by rewrite lookup_insert_eq. }
    split; [done|]. rewrite Hm.
    rewrite !map_size_insert_None; [done..|].
    rewrite lookup_insert_ne by congruence. done.
  - intros Heq. unfold send_message. rewrite Hconv, Htxt. fold row'.
    unfold insert_message. rewrite Hst1. cbn [messages conversations].
    by rewrite Heq, lookup_insert_eq.
Qed.

Lemma send_message_records_witness :
  messages (store_of (send_message first_call hello_body storeA)) =
  <[msg_id (outgoing_message first_call "p1_c1" "Hello" (Some "a1") (Some "Ann")) :=
      outgoing_message first_call "p1_c1" "Hello" (Some "a1") (Some "Ann")]>
    (messages storeA).
Proof.
  refine (proj1 (proj2 (proj2
    (send_message_records first_call second_call hello_body "p1_c1" "Hello"
       conversationA storeA _ _ _ _ _)))).
  - reflexivity.
  - reflexivity.
  - vm_compute. reflexivity.
  - vm_compute. reflexivity.
  - vm_compute. reflexivity.
Defined.

(** ** The messaging window *)

Lemma set_lastError_sent e st :
  sentMessageIds (set_lastError e st) = sentMessageIds st.
Proof. done. Qed.

(** The request of a call that passes the guards. *)
Lemma handleSend_begin_request props env forcedText st i page txt :
  trim (default (inputText st) (truthy_text forcedText)) = txt →
  txt ≠ "" →
  isSending st = false →
  (truthy_text forcedText = None →
   validateMessageContent (approvedLinks props) txt = true) →
  list_find (λ p, page_id p = pageId (conversation props)) (pages props) =
    Some (i, page) →
  accessToken page ≠ "" →
  tempId_of env ∉ sentMessageIds st →
  request_of (handleSend_begin props env forcedText st) =
    Some (mkRequest (customerId (conversation props)) txt (accessToken page)
            (tag_of (windowPolicy (lastTimestamp (conversation props))
                       (memo_now props)))).
Proof.
  intros Htxt Hne Hsending Hcheck Hfind Htoken Hfresh.
  unfold handleSend_begin. rewrite Htxt, Hsending, Hfind.
  rewrite (bool_decide_eq_false_2 (txt = "")) by done. simpl.
  assert (negb (bool_decide (is_Some (truthy_text forcedText)))
          && negb (validateMessageContent (approvedLinks props) txt) = false) as ->.
  { destruct (truthy_text forcedText) as [t|] eqn:Hforced.
    - by rewrite bool_decide_eq_true_2.
    - by rewrite Hcheck. }
  rewrite (bool_decide_eq_false_2 (accessToken page = "")) by done.
  unfold windowPolicy, tag_of, tempId_of in *.
  destruct (isWindowExpired _ _); rewrite ?set_lastError_sent;
    by rewrite bool_decide_eq_false_2.
Qed.

(** C7 on the code. The policy is RESTRICTED exactly when more than 24
    hours have elapsed between the two times it is given, so 25 hours give
    RESTRICTED and one hour gives ALLOWED. An expired window does not stop
    the send: a call that passes the guards of handleSend (text, no send
    under way, content check, connected page, fresh temporary identifier)
    issues its request whatever the policy, with tag HUMAN_AGENT when the
    memo says RESTRICTED and without a tag otherwise. The time that the
    memo reads is that of its evaluation, which is repeated only when the
    conversation's last timestamp changes, not that of the call: in a
    window rendered one hour after the last message and left open, a call
    forty-eight hours after that message, when the policy is RESTRICTED,
    issues its request without the tag; when the platform rejects that
    request, the agent is shown the error of the expired window. *)
Theorem window_policy_tags_request props env forcedText st lastTime now :
  (windowPolicy lastTime now = RESTRICTED ↔ now - lastTime > 24 * 60 * 60 * 1000) ∧
  (windowPolicy lastTime now = ALLOWED ↔ now - lastTime ≤ 24 * 60 * 60 * 1000) ∧
  windowPolicy (now - 25 * HOUR_MS) now = RESTRICTED ∧
  windowPolicy (now - HOUR_MS) now = ALLOWED ∧
  (∀ i page txt,
     trim (default (inputText st) (truthy_text forcedText)) = txt →
     txt ≠ "" →
     isSending st = false →
     (truthy_text forcedText = None →
      validateMessageContent (approvedLinks props) txt = true) →
     list_find (λ p, page_id p = pageId (conversation props)) (pages props) =
       Some (i, page) →
     accessToken page ≠ "" →
     tempId_of env ∉ sentMessageIds st →
     request_of (handleSend_begin props env forcedText st) =
       Some (mkRequest (customerId (conversation props)) txt (accessToken page)
               (tag_of (windowPolicy (lastTimestamp (conversation props))
                          (memo_now props))))) ∧
  request_of (handleSend_begin late_props first_call None typed_hello) =
    Some (mkRequest "c1" "Hello" "EAAB-token" (Some "HUMAN_AGENT")) ∧
  windowPolicy (lastTimestamp (conversation stale_props)) (date_now two_days_later) =
    RESTRICTED ∧
  request_of (handleSend_begin stale_props two_days_later None typed_hello) =
    Some (mkRequest "c1" "Hello" "EAAB-token" None) ∧
  lastError (handleSend stale_props two_days_later None (Rejected window_closed)
               typed_hello) =
    Some (mkLastError WINDOW_ERROR true).
Proof.
  split_and!; [..|by vm_compute|by vm_compute|by vm_compute|by vm_compute].
  - unfold windowPolicy, isWindowExpired, DAY_MS. case_bool_decide; split; (done || lia).
  - unfold windowPolicy, isWindowExpired, DAY_MS. case_bool_decide; split; (done || lia).
  - unfold windowPolicy, isWindowExpired, DAY_MS, HOUR_MS.
    rewrite bool_decide_eq_true_2; [done|lia].
  - unfold windowPolicy, isWindowExpired, DAY_MS, HOUR_MS.
    rewrite bool_decide_eq_false_2; [done|lia].
  - intros i page txt. apply handleSend_begin_request.
Qed.

Lemma window_policy_tags_request_witness :
  request_of (handleSend_begin agent_props first_call None typed_hello) =
  Some (mkRequest "c1" "Hello" "EAAB-token" None).
Proof.
  refine (proj1 (proj2 (proj2 (proj2 (proj2
    (window_policy_tags_request agent_props first_call None typed_hello 0 0)))))
    0%nat (mkPage "p1" "EAAB-token") "Hello" _ _ _ _ _ _ _).
  - by vm_compute.
  - discriminate.
  - reflexivity.
  - intros _. by vm_compute.
  - by vm_compute.
  - discriminate.
  - apply not_elem_of_empty.
Defined.

(** ** The optimistic entry *)

Example hello_is_requested :
  request_of (handleSend_begin agent_props first_call None typed_hello) =
  Some (mkRequest "c1" "Hello" "EAAB-token" None).
Proof. by vm_compute. Qed.

Example late_hello_is_requested_with_tag :
  request_of (handleSend_begin late_props first_call None typed_hello) =
  Some (mkRequest "c1" "Hello" "EAAB-token" (Some "HUMAN_AGENT")).
Proof. by vm_compute. Qed.

Lemma addMessage_known m v :
  msg_id m ∈ msg_id <$> v → addMessage m v = v.
Proof. intros H. unfold addMessage. by rewrite bool_decide_eq_true_2. Qed.

Lemma addMessage_fresh m v :
  msg_id m ∉ msg_id <$> v → addMessage m v = v ++ [m].
Proof. intros H. unfold addMessage. by rewrite bool_decide_eq_false_2. Qed.

Lemma addMessage_has_id m v : msg_id m ∈ msg_id <$> addMessage m v.
Proof.
  unfold addMessage. case_bool_decide; [done|].
  rewrite fmap_app. apply elem_of_app. right. simpl. apply list_elem_of_singleton. done.
Qed.

Lemma handleSend_begin_awaiting props env forcedText st st' rq optimistic :
  handleSend_begin props env forcedText st = Awaiting st' rq optimistic →
  ∃ v, view st' = addMessage optimistic v ∧
       conversationId optimistic = conv_id (conversation props).
Proof.
  unfold handleSend_begin.
  destruct (bool_decide _ || isSending st); [done|].
  destruct (negb _ && negb _); [done|].
  destruct (list_find _ (pages props)) as [[i currentPage]|]; [|done].
  destruct (bool_decide (accessToken currentPage = "")); [done|].
  case_bool_decide; [done|].
  intros [= <- _ <-]. eexists. split; [reflexivity|done].
Qed.

(** C2 on the code. Once the request is out, the optimistic message is in
    the view under its temporary identifier. A rejected send leaves the view
    as it is, the optimistic message included. A send resolved with an
    identifier that the view does not hold appends a second message, the
    optimistic one with that identifier, and the canonical row that arrives
    later under the same identifier changes nothing: the window shows two
    messages for one send, and one message for a send that failed. *)
Theorem handleSend_keeps_optimistic_entry props env forcedText st st' rq optimistic :
  handleSend_begin props env forcedText st = Awaiting st' rq optimistic →
  msg_id optimistic ∈ msg_id <$> view st' ∧
  (∀ err, view (handleSend_settle forcedText optimistic (Rejected err) st') = view st') ∧
  (∀ k, truthy_text (Some k) = Some k → k ∉ msg_id <$> view st' →
     let settled := handleSend_settle forcedText optimistic (Resolved (Some k)) st' in
     view settled = view st' ++ [with_id k optimistic] ∧
     ∀ row, msg_id row = k → view (onMessage row settled) = view settled) ∧
  (let sent := handleSend agent_props first_call None (Resolved (Some "m_9f8e7d"))
                 typed_hello in
   chatMessages conversationA (view (onMessage (with_id "m_9f8e7d" optimistic_hello) sent)) =
   [optimistic_hello; with_id "m_9f8e7d" optimistic_hello]) ∧
  (let failed := handleSend agent_props first_call None (Rejected window_closed)
                   typed_hello in
   chatMessages conversationA (view failed) = [optimistic_hello]).
Proof.
  intros Hb.
  destruct (handleSend_begin_awaiting _ _ _ _ _ _ _ Hb) as (v & Hv & _).
  split_and!.
  - rewrite Hv. apply addMessage_has_id.
  - done.
  - intros k Hk Hfresh settled. subst settled.
    unfold handleSend_settle. rewrite Hk. cbn [view].
    assert (addMessage (with_id k optimistic) (view st') =
              view st' ++ [with_id k optimistic]) as Hadd
      by by apply addMessage_fresh.
    split; [done|].
    intros row Hrow. unfold onMessage. cbn [view].
    apply addMessage_known. rewrite Hadd, fmap_app, Hrow.
    apply elem_of_app. right. simpl. by apply list_elem_of_singleton.
  - by vm_compute.
  - by vm_compute.
Qed.

Lemma handleSend_keeps_optimistic_entry_witness :
  msg_id optimistic_hello ∈
  msg_id <$> view (mkChat [optimistic_hello] "Hello " true None false false
                     {[ "temp-1700000100000-k3j2h1g0f" ]}).
Proof.
  refine (proj1 (handleSend_keeps_optimistic_entry agent_props first_call None typed_hello
           _ (mkRequest "c1" "Hello" "EAAB-token" None) optimistic_hello _)).
  vm_compute. reflexivity.
Defined.

(** * Further properties of the handlers *)

(** ** What the handlers keep *)

Lemma mark_read_twice m : mark_read (mark_read m) = mark_read m.
Proof. done. Qed.

Lemma messages_kept_refl st : messages_kept st st.
Proof. intros k m Hk. by left. Qed.

Lemma messages_kept_trans st1 st2 st3 :
  messages_kept st1 st2 → messages_kept st2 st3 → messages_kept st1 st3.
Proof.
  intros H12 H23 k m Hk.
  destruct (H12 k m Hk) as [H|H]; destruct (H23 _ _ H) as [H'|H']; auto.
Qed.

Lemma conversations_kept_refl st : conversations_kept st st.
Proof. by intros k Hk. Qed.

(** Nothing has changed. *)
Ltac unchanged :=
  simpl; split;
  [apply messages_kept_refl | first [apply conversations_kept_refl | reflexivity]].

Lemma conversations_kept_trans st1 st2 st3 :
  conversations_kept st1 st2 → conversations_kept st2 st3 → conversations_kept st1 st3.
Proof. intros H12 H23 k Hk. auto. Qed.

Lemma insert_message_kept row st st' :
  insert_message row st = Some st' →
  conversations st' = conversations st ∧
  messages st' = <[msg_id row := row]> (messages st) ∧
  messages st !! msg_id row = None ∧
  is_Some (conversations st !! conversationId row).
Proof.
  unfold insert_message.
  destruct (messages st !! msg_id row) eqn:Hm; [done|].
  destruct (conversations st !! conversationId row) eqn:Hc; [|done].
  intros [= <-]. eauto.
Qed.

Lemma resolve_conversation_kept ex page customer txt ts st :
  let st' := (resolve_conversation ex page customer txt ts st).1 in
  messages st' = messages st ∧ conversations_kept st st'.
Proof.
  destruct ex as [k|]; simpl; (split; [done|]); intros j Hj; simpl; [done|].
  unfold upsert_conversation. destruct (storable _); [|done].
  destruct (decide (conv_id (new_conversation page customer txt ts) = j)) as [<-|Hne].
  - rewrite lookup_insert_eq. eauto.
  - by rewrite lookup_insert_ne.
Qed.

Lemma store_message_kept ex key page customer txt ts st :
  let st' := (store_message ex key page customer txt ts st).1 in
  conversations st' = conversations st ∧ messages_kept st st'.
Proof.
  unfold store_message.
  destruct (key ≫= _) as [st1|] eqn:E; simpl; [|(split; [done|apply messages_kept_refl])].
  destruct key as [k0|]; [|done]. simpl in E.
  destruct (storable ts); [|done].
  apply insert_message_kept in E as (Hc & Hm & Hfresh & _).
  split; [done|]. intros k m Hk. left. rewrite Hm.
  rewrite lookup_insert_ne; [done|]. intros Heq. simpl in Heq. subst k0.
  simpl in Hfresh. congruence.
Qed.

Lemma handleMessage_after_kept ex key page customer txt ts st :
  let st' := (handleMessage_after ex key page customer txt ts st).1 in
  messages_kept st st' ∧ conversations_kept st st'.
Proof.
  unfold handleMessage_after.
  pose proof (resolve_conversation_kept ex page customer txt ts st) as [Hm1 Hc1].
  destruct (resolve_conversation ex page customer txt ts st) as [st1 l1]. simpl in *.
  pose proof (store_message_kept ex key page customer txt ts st1) as [Hc2 Hm2].
  destruct (store_message ex key page customer txt ts st1) as [st2 l2]. simpl in *.
  split.
  - intros k m Hk. apply Hm2. by rewrite Hm1.
  - intros k Hk. rewrite Hc2. by apply Hc1.
Qed.

Lemma handleMessage_kept ev m page customer st :
  let st' := (handleMessage ev m page customer st).1 in
  messages_kept st st' ∧ conversations_kept st st'.
Proof.
  unfold handleMessage.
  destruct (truthy_text (msg_text m)) as [txt|]; [|unchanged].
  destruct (toISOString (ev_timestamp ev)) as [ts|]; [|unchanged].
  apply handleMessage_after_kept.
Qed.

Lemma handleDelivery_kept d st :
  let st' := (handleDelivery d st).1 in
  messages_kept st st' ∧ conversations st' = conversations st.
Proof.
  unfold handleDelivery.
  destruct (mids d) as [[|i ids]|]; simpl; try (by unchanged).
  split; [|done]. intros k m Hk. simpl.
  rewrite lookup_update_read_in, Hk. simpl. case_bool_decide; auto.
Qed.

Lemma handleRead_kept r st :
  let st' := (handleRead r st).1 in
  messages_kept st st' ∧ conversations st' = conversations st.
Proof.
  unfold handleRead.
  destruct (toISOString (watermark r)) as [w|]; simpl;
    [|unchanged].
  split; [|done]. intros k m Hk. simpl.
  rewrite lookup_update_read_lte, Hk. simpl. case_bool_decide; auto.
Qed.

Lemma process_entry_kept en st :
  let st' := store_of (process_entry en st) in
  messages_kept st st' ∧ conversations_kept st st'.
Proof.
  unfold process_entry, store_of.
  destruct (messaging en) as [[|ev evs]|]; try (by unchanged).
  destruct (sender ev) as [a|], (recipient ev) as [b|];
    try (by unchanged).
  destruct (message ev) as [m|].
  - pose proof (handleMessage_kept ev m b a st) as H.
    by destruct (handleMessage ev m b a st).
  - destruct (delivery ev) as [d|].
    + pose proof (handleDelivery_kept d st) as [H1 H2].
      destruct (handleDelivery d st) as [st' l]. simpl in *.
      split; [done|]. intros k Hk. by rewrite H2.
    + destruct (read ev) as [r|]; [|unchanged].
      pose proof (handleRead_kept r st) as [H1 H2].
      destruct (handleRead r st) as [st' l]. simpl in *.
      split; [done|]. intros k Hk. by rewrite H2.
Qed.

Lemma process_entries_kept es st :
  let st' := store_of (process_entries es st) in
  messages_kept st st' ∧ conversations_kept st st'.
Proof.
  revert st. induction es as [|en es IH]; intros st.
  - unchanged.
  - cbn [process_entries].
    pose proof (process_entry_kept en st) as [Hm1 Hc1].
    destruct (process_entry en st) as [[[|] st1] l1]; [|done].
    pose proof (IH st1) as [Hm2 Hc2].
    destruct (process_entries es st1) as [[c st2] l2].
    unfold store_of in *. simpl in *. split.
    + by eapply messages_kept_trans.
    + by eapply conversations_kept_trans.
Qed.

Lemma post_kept body st :
  let st' := store_of (post body st) in
  messages_kept st st' ∧ conversations_kept st st'.
Proof.
  unfold post. case_bool_decide; [|unchanged].
  destruct (entry body) as [es|]; [|unchanged].
  pose proof (process_entries_kept es st) as Hes.
  by destruct (process_entries es st) as [[[|] st'] l].
Qed.

Lemma send_message_kept env body st :
  let st' := store_of (send_message env body st) in
  messages_kept st st' ∧ conversations_kept st st'.
Proof.
  unfold send_message.
  destruct (truthy_text (sb_conversationId body)) as [conv|];
    [|unchanged].
  destruct (truthy_text (sb_text body)) as [txt|];
    [|unchanged].
  destruct (insert_message _ st) as [st1|] eqn:E;
    [|unchanged].
  apply insert_message_kept in E as (Hc & Hm & Hfresh & _).
  unfold store_of. simpl. split.
  - intros k m Hk. left. simpl. rewrite Hm.
    rewrite lookup_insert_ne; [done|]. intros Heq. rewrite Heq in Hfresh. congruence.
  - intros k Hk. simpl. rewrite Hc.
    destruct (decide (conv = k)) as [<-|Hne].
    + rewrite lookup_alter_eq. destruct Hk as [r ->]. eauto.
    + by rewrite lookup_alter_ne.
Qed.

(** X1. Neither a webhook payload nor a send-message call deletes a row or
    rewrites a stored message: every stored message is still there
    afterwards with all its columns, but for the read flag, which may have
    been raised and is never lowered; every stored conversation identifier
    still names a row. *)
Theorem handlers_keep_rows body env sb st :
  (messages_kept st (store_of (post body st)) ∧
   conversations_kept st (store_of (post body st))) ∧
  (messages_kept st (store_of (send_message env sb st)) ∧
   conversations_kept st (store_of (send_message env sb st))) ∧
  ∀ m, isRead (mark_read m) = true.
Proof.
  pose proof (post_kept body st) as Hpost.
  pose proof (send_message_kept env sb st) as Hsend.
  split_and!; [apply Hpost | apply Hpost | apply Hsend | apply Hsend | done].
Qed.

(** ** The shape of the store is kept *)

Lemma referential_convs st st' :
  referential st → messages st' = messages st → conversations_kept st st' →
  referential st'.
Proof.
  intros Hr Hm Hc k m Hk. rewrite Hm in Hk.
  destruct (Hr k m Hk) as [Hid Hconv]. split; [done|]. by apply Hc.
Qed.

Lemma referential_insert row st st' :
  referential st → insert_message row st = Some st' → referential st'.
Proof.
  intros Hr Hi. apply insert_message_kept in Hi as (Hc & Hm & Hfresh & Hfk).
  intros k m Hk. rewrite Hm in Hk. rewrite Hc.
  apply lookup_insert_Some in Hk as [[<- <-]|[Hne Hk]]; [done|]. by apply Hr.
Qed.

Lemma referential_marked (f : string → Message → bool) st msgs' :
  referential st →
  (∀ k, msgs' !! k = (λ m, if f k m then mark_read m else m) <$> messages st !! k) →
  referential (mkStore (conversations st) msgs').
Proof.
  intros Hr Hl k m' Hk. simpl in *. rewrite Hl in Hk.
  destruct (messages st !! k) as [m|] eqn:Hm; [|done]. simpl in Hk.
  injection Hk as <-. destruct (Hr k m Hm) as [Hid Hconv].
  by destruct (f k m).
Qed.

Lemma handleMessage_referential ev m page customer st :
  referential st → referential (handleMessage ev m page customer st).1.
Proof.
  intros Hr. unfold handleMessage.
  destruct (truthy_text (msg_text m)) as [txt|]; [|done].
  destruct (toISOString (ev_timestamp ev)) as [ts|]; [|done].
  unfold handleMessage_after.
  set (ex := select_conversation page customer (conversations st)).
  pose proof (resolve_conversation_kept ex page customer txt ts st) as [Hm1 Hc1].
  destruct (resolve_conversation ex page customer txt ts st) as [st1 l1]. simpl in *.
  assert (referential st1) as Hr1 by by eapply referential_convs.
  unfold store_message.
  destruct (mid m ≫= _) as [st2|] eqn:E; simpl; [|done].
  destruct (mid m) as [k0|]; [|done]. simpl in E.
  destruct (storable ts); [|done].
  by eapply referential_insert.
Qed.

Lemma process_entry_referential en st :
  referential st → referential (store_of (process_entry en st)).
Proof.
  intros Hr. unfold process_entry, store_of.
  destruct (messaging en) as [[|ev evs]|]; [done..| |done].
  destruct (sender ev) as [a|], (recipient ev) as [b|]; [|done..].
  destruct (message ev) as [m|].
  - pose proof (handleMessage_referential ev m b a st Hr) as H.
    by destruct (handleMessage ev m b a st).
  - destruct (delivery ev) as [d|].
    + unfold handleDelivery. destruct (mids d) as [[|i ids]|]; [done| |done]. simpl.
      apply (referential_marked (λ k _, bool_decide (k ∈ i :: ids))); [done|].
      intros k. apply lookup_update_read_in.
    + destruct (read ev) as [r|]; [|done].
      unfold handleRead. destruct (toISOString (watermark r)) as [w|]; [|done]. simpl.
      apply (referential_marked (λ _ m, bool_decide (timestamp m ≤ w))); [done|].
      intros k. apply lookup_update_read_lte.
Qed.

Lemma process_entries_referential es st :
  referential st → referential (store_of (process_entries es st)).
Proof.
  revert st. induction es as [|en es IH]; intros st Hr; [done|].
  cbn [process_entries].
  pose proof (process_entry_referential en st Hr) as H1.
  destruct (process_entry en st) as [[[|] st'] l]; [|done].
  pose proof (IH st' H1) as H2.
  by destruct (process_entries es st') as [[c st''] l'].
Qed.

Lemma post_referential body st :
  referential st → referential (store_of (post body st)).
Proof.
  intros Hr. unfold post. case_bool_decide; [|done].
  destruct (entry body) as [es|]; [|done].
  pose proof (process_entries_referential es st Hr) as Hes.
  by destruct (process_entries es st) as [[[|] st'] l].
Qed.

Lemma send_message_shape env body st :
  well_keyed (conversations st) → referential st →
  well_keyed (conversations (store_of (send_message env body st))) ∧
  referential (store_of (send_message env body st)).
Proof.
  intros Hw Hr. unfold send_message.
  destruct (truthy_text (sb_conversationId body)) as [conv|]; [|done].
  destruct (truthy_text (sb_text body)) as [txt|]; [|done].
  destruct (insert_message _ st) as [st1|] eqn:E; [|done].
  pose proof (referential_insert _ _ _ Hr E) as Hr1.
  apply insert_message_kept in E as (Hc & Hm & Hfresh & Hfk).
  unfold store_of. simpl. split.
  - rewrite Hc. by apply well_keyed_alter.
  - eapply (referential_convs st1); [done..|].
    intros k Hk. simpl.
    destruct (decide (conv = k)) as [<-|Hne].
    + rewrite lookup_alter_eq. destruct Hk as [r ->]. eauto.
    + by rewrite lookup_alter_ne.
Qed.

(** X2. The shape of the store is an invariant of the server's writes. If
    no conversation has the empty identifier, each pair of page and customer
    has at most one conversation, each message is stored under its own
    identifier and each message names a stored conversation, then the same
    holds after any webhook payload and after any send-message call. The
    empty store has this shape. *)
Theorem handlers_keep_shape body env sb st :
  well_keyed (conversations st) → referential st →
  (well_keyed (conversations (store_of (post body st))) ∧
   referential (store_of (post body st))) ∧
  (well_keyed (conversations (store_of (send_message env sb st))) ∧
   referential (store_of (send_message env sb st))) ∧
  (well_keyed (conversations empty_store) ∧ referential empty_store).
Proof.
  intros Hw Hr. split_and!.
  - by apply post_well_keyed.
  - by apply post_referential.
  - by apply send_message_shape.
  - by apply send_message_shape.
  - apply well_keyed_empty.
  - intros k m Hk. simpl in Hk. by rewrite lookup_empty in Hk.
Qed.

Lemma handlers_keep_shape_witness :
  well_keyed (conversations (store_of (post bodyA empty_store))) ∧
  referential (store_of (post bodyA empty_store)).
Proof.
  refine (proj1 (handlers_keep_shape bodyA first_call hello_body empty_store _ _)).
  - split; [reflexivity|].
    intros page customer k1 k2 r1 r2 H1. simpl in H1.
    rewrite lookup_empty in H1. discriminate.
  - intros k m Hk. simpl in Hk. rewrite lookup_empty in Hk. discriminate.
Defined.

(** ** The conversation row after its creation *)

Lemma storable_toISOString ts : storable ts = true → toISOString (Some ts) = Some ts.
Proof.
  unfold storable, toISOString. intros H%bool_decide_eq_true.
  rewrite bool_decide_eq_true_2; [done|lia].
Qed.

Lemma process_text_entry page customer x st :
  process_entry (text_entry page customer x) st =
  (Normal,
   (handleMessage
      (mkEvent (Some customer) (Some page) (Some x.1.1)
         (Some (mkMessagePart x.1.2 (Some x.2))) None None)
      (mkMessagePart x.1.2 (Some x.2)) page customer st).1,
   (handleMessage
      (mkEvent (Some customer) (Some page) (Some x.1.1)
         (Some (mkMessagePart x.1.2 (Some x.2))) None None)
      (mkMessagePart x.1.2 (Some x.2)) page customer st).2).
Proof.
  unfold process_entry, text_entry. simpl.
  by destruct (handleMessage _ _ page customer st).
Qed.

Lemma process_text_entries_found page customer xs : ∀ st,
  is_Some (select_conversation page customer (conversations st)) →
  conversations (store_of (process_entries (text_entry page customer <$> xs) st)) =
    conversations st ∧
  (process_entries (text_entry page customer <$> xs) st).1.1 = Normal.
Proof.
  induction xs as [|x xs IH]; intros st Hsel; [done|].
  cbn [fmap list_fmap process_entries]. rewrite process_text_entry.
  set (st1 := (handleMessage _ _ page customer st).1).
  assert (conversations st1 = conversations st) as Hc by by apply handleMessage_found.
  destruct (IH st1) as [Hcs Hn]; [by rewrite Hc|].
  destruct (process_entries (text_entry page customer <$> xs) st1) as [[c st2] l2].
  unfold store_of in *. simpl in *. split; [congruence|done].
Qed.

(** X3. From a store in which the pair has no conversation, a payload of
    text messages of one customer to one page, the first with a text and a
    storable timestamp, leaves the pair exactly one conversation, under the
    pair's identifier and OPEN, with unread 1 and the text and time of the
    first message: the messages that follow in the payload, whatever they
    are, change no conversation row, so the unread counter does not count
    them and the last message does not follow them. *)
Theorem later_messages_leave_conversation page customer x xs st :
  pair_absent page customer (conversations st) →
  x.2 ≠ "" → storable x.1.1 = true →
  let after :=
    store_of (post (mkBody "page" (Some (text_entry page customer <$> x :: xs))) st) in
  conversations after =
    conversations
      (store_of (post (mkBody "page" (Some [text_entry page customer x])) st)) ∧
  ∃ r,
    sole_row page customer (conversationIdOf page customer) r (conversations after) ∧
    unreadCount r = 1 ∧ lastMessage r = x.2 ∧ lastTimestamp r = x.1.1 ∧
    status r = OPEN.
Proof.
  intros Ha Htxt Hts after.
  assert (conversations after =
            <[conversationIdOf page customer := new_conversation page customer x.2 x.1.1]>
              (conversations st)) as Hafter.
  { subst after. unfold post. rewrite bool_decide_eq_true_2 by done.
    cbn [entry fmap list_fmap process_entries]. rewrite process_text_entry.
    set (st1 := (handleMessage _ _ page customer st).1).
    assert (conversations st1 =
              <[conversationIdOf page customer :=
                  new_conversation page customer x.2 x.1.1]> (conversations st)) as Hc.
    { subst st1. rewrite (handleMessage_text page customer x.2 x.1.1).
      - rewrite (select_absent _ _ _ Ha), handleMessage_after_conversations. simpl.
        unfold upsert_conversation. simpl. by rewrite Hts.
      - by apply truthy_text_Some.
      - by apply storable_toISOString. }
    destruct (process_text_entries_found page customer xs st1) as [Hcs Hn].
    { rewrite Hc.
      erewrite select_sole_row; [eauto|].
      pose proof (upsert_sole_row page customer x.2 x.1.1 _ Hts Ha) as H.
      unfold upsert_conversation in H. simpl in H. by rewrite Hts in H. }
    destruct (process_entries (text_entry page customer <$> xs) st1) as [[c st2] l2].
    unfold store_of in *. simpl in *. subst c. simpl. congruence. }
  split.
  - rewrite Hafter. unfold post. rewrite bool_decide_eq_true_2 by done.
    cbn [entry process_entries]. rewrite process_text_entry. unfold store_of. simpl.
    rewrite (handleMessage_text page customer x.2 x.1.1).
    + rewrite (select_absent _ _ _ Ha), handleMessage_after_conversations. simpl.
      unfold upsert_conversation. simpl. by rewrite Hts.
    + by apply truthy_text_Some.
    + by apply storable_toISOString.
  - exists (new_conversation page customer x.2 x.1.1). split_and!; [|done..].
    rewrite Hafter.
    pose proof (upsert_sole_row page customer x.2 x.1.1 _ Hts Ha) as H.
    unfold upsert_conversation in H. simpl in H. by rewrite Hts in H.
Qed.

Lemma later_messages_leave_conversation_witness :
  conversations
    (store_of (post (mkBody "page"
                       (Some (text_entry "p1" "c1" <$>
                                (1700000000000, Some "m1", "Hi") ::
                                [(1700000001000, Some "m2", "Hello");
                                 (1700000002000, Some "m3", "Are you there?")])))
                 empty_store)) =
  conversations
    (store_of (post (mkBody "page"
                       (Some [text_entry "p1" "c1" (1700000000000, Some "m1", "Hi")]))
                 empty_store)).
Proof.
  refine (proj1 (later_messages_leave_conversation "p1" "c1"
                   (1700000000000, Some "m1", "Hi")
                   [(1700000001000, Some "m2", "Hello");
                    (1700000002000, Some "m3", "Are you there?")] empty_store _ _ _)).
  - intros k r H. simpl in H. rewrite lookup_empty in H. discriminate.
  - discriminate.
  - reflexivity.
Defined.

(** ** The conversation identifier *)

(** X4. On pages whose identifier holds no underscore, as the platform's
    numeric identifiers do, the conversation identifier determines the page
    and the customer: two pairs with one identifier are one pair. Without
    that condition it does not: the page p_s with customer c and the page p
    with customer s_c share an identifier. *)
Theorem conversationIdOf_injective page page' customer customer' s :
  (has_underscore page = false → has_underscore page' = false →
   conversationIdOf page customer = conversationIdOf page' customer' →
   page = page' ∧ customer = customer') ∧
  conversationIdOf (page +:+ "_" +:+ s) customer =
  conversationIdOf page (s +:+ "_" +:+ customer).
Proof.
  split.
  - unfold conversationIdOf. revert page'.
    induction page as [|a page IH]; intros [|b page'] Hp Hp' Heq; simpl in *;
      simplify_eq; try done.
    apply orb_false_iff in Hp as [_ Hp]. apply orb_false_iff in Hp' as [_ Hp'].
    by destruct (IH page' Hp Hp' ltac:(done)) as [-> ->].
  - unfold conversationIdOf. induction page as [|a page IH]; [done|].
    change (String a ((page +:+ "_" +:+ s) +:+ "_" +:+ customer) =
            String a (page +:+ "_" +:+ s +:+ "_" +:+ customer)).
    by rewrite IH.
Qed.

Lemma conversationIdOf_injective_witness :
  "1029384756" = "1029384756" ∧ "5647382910" = "5647382910".
Proof.
  apply (proj1 (conversationIdOf_injective "1029384756" "1029384756"
                  "5647382910" "5647382910" ""));
    reflexivity.
Defined.

(** ** Receipts compose *)



Lemma update_read_in_twice ids1 ids2 msgs :
  update_read_in ids2 (update_read_in ids1 msgs) = update_read_in (ids1 ++ ids2) msgs.
Proof.
  apply map_eq. intros k. rewrite !lookup_update_read_in.
  destruct (msgs !! k) as [m|]; [|done]. simpl. f_equal.
  destruct (bool_decide_reflect (k ∈ ids1)) as [H1|H1];
    destruct (bool_decide_reflect (k ∈ ids2)) as [H2|H2];
    destruct (bool_decide_reflect (k ∈ ids1 ++ ids2)) as [H3|H3];
    try done; exfalso; rewrite elem_of_app in H3; tauto.
Qed.



(** X6. Delivery receipts compose by their lists: a receipt for one list
    and then a receipt for another leave the store that one receipt for
    both lists leaves, so the order of two receipts does not matter and a
    receipt applied twice is a receipt applied once. *)
Theorem handleDelivery_composes d1 d2 ids1 ids2 st :
  mids d1 = Some ids1 →
  mids d2 = Some ids2 →
  (handleDelivery d2 (handleDelivery d1 st).1).1 =
    (handleDelivery (mkDeliveryPart (Some (ids1 ++ ids2))) st).1 ∧
  (handleDelivery d2 (handleDelivery d1 st).1).1 =
    (handleDelivery d1 (handleDelivery d2 st).1).1 ∧
  (handleDelivery d1 (handleDelivery d1 st).1).1 = (handleDelivery d1 st).1.
Proof.
  intros H1 H2.
  assert (∀ d ids s, mids d = Some ids →
            (handleDelivery d s).1 =
            mkStore (conversations s) (update_read_in ids (messages s))) as Hone.
  { intros d ids s Hd. unfold handleDelivery. rewrite Hd.
    destruct ids as [|i ids]; [|done]. simpl.
    rewrite update_read_in_unknown; [by destruct s|].
    intros k Hk. by apply elem_of_nil in Hk. }
  assert (∀ ids ids', update_read_in (ids ++ ids') (messages st) =
                      update_read_in (ids' ++ ids) (messages st)) as Hcomm.
  { intros ids ids'. apply map_eq. intros k. rewrite !lookup_update_read_in.
    destruct (messages st !! k) as [m|]; [|done]. simpl. f_equal.
    destruct (bool_decide_reflect (k ∈ ids ++ ids')) as [Ha|Ha];
      destruct (bool_decide_reflect (k ∈ ids' ++ ids)) as [Hb|Hb];
      try done; exfalso; rewrite elem_of_app in Ha, Hb; tauto. }
  rewrite !(Hone d2 ids2), !(Hone d1 ids1), (Hone _ (ids1 ++ ids2)) by done.
  simpl. rewrite !update_read_in_twice. split_and!.
  - done.
  - by rewrite Hcomm.
  - f_equal. apply map_eq. intros k. rewrite !lookup_update_read_in.
    destruct (messages st !! k) as [m|]; [|done]. simpl. f_equal.
    destruct (bool_decide_reflect (k ∈ ids1 ++ ids1)) as [Ha|Ha];
      destruct (bool_decide_reflect (k ∈ ids1)) as [Hb|Hb];
      try done; exfalso; rewrite elem_of_app in Ha; tauto.
Qed.

Lemma handleDelivery_composes_witness :
  (handleDelivery (mkDeliveryPart (Some ["m2"]))
     (handleDelivery (mkDeliveryPart (Some ["m1"; "zzz"])) two_conversations).1).1 =
  (handleDelivery (mkDeliveryPart (Some (["m1"; "zzz"] ++ ["m2"]))) two_conversations).1.
Proof.
  refine (proj1 (handleDelivery_composes (mkDeliveryPart (Some ["m1"; "zzz"]))
                   (mkDeliveryPart (Some ["m2"])) ["m1"; "zzz"] ["m2"] two_conversations
                   _ _)); reflexivity.
Defined.

(** ** POST /send-message: what is refused *)

(** X7. A send-message call without a conversation identifier or without a
    text, the empty string included, is answered 400; a call for a
    conversation that is not stored is answered 500; in both cases, and
    whenever the answer is not the stored message, the store is left as it
    was. When the answer is a message, that message is outgoing, its
    identifier was free, its conversation was stored, and it is now stored
    under its identifier. *)
Theorem send_message_refusals env body st :
  (truthy_text (sb_conversationId body) = None ∨ truthy_text (sb_text body) = None →
   send_message env body st =
     (Status400 "conversationId and text are required", st, [])) ∧
  (∀ conv txt,
     truthy_text (sb_conversationId body) = Some conv →
     truthy_text (sb_text body) = Some txt →
     conversations st !! conv = None →
     send_message env body st = (Status500, st, [mkLog Error "Error sending message"])) ∧
  ((∀ m, (send_message env body st).1.1 ≠ Json m) →
   store_of (send_message env body st) = st) ∧
  (∀ m, (send_message env body st).1.1 = Json m →
     isIncoming m = false ∧ isRead m = true ∧
     messages st !! msg_id m = None ∧
     is_Some (conversations st !! conversationId m) ∧
     messages (store_of (send_message env body st)) !! msg_id m = Some m).
Proof.
  unfold send_message, store_of. split_and!.
  - intros [H|H]; rewrite H; [done|]. by destruct (truthy_text (sb_conversationId body)).
  - intros conv txt Hc Ht Hnone. rewrite Hc, Ht.
    unfold insert_message. simpl. rewrite Hnone.
    by destruct (messages st !! _).
  - intros Hno.
    destruct (truthy_text (sb_conversationId body)) as [conv|]; [|done].
    destruct (truthy_text (sb_text body)) as [txt|]; [|done].
    destruct (insert_message _ st) as [st1|]; [|done].
    by destruct (Hno _ eq_refl).
  - intros m Hm.
    destruct (truthy_text (sb_conversationId body)) as [conv|]; [|done].
    destruct (truthy_text (sb_text body)) as [txt|]; [|done].
    destruct (insert_message _ st) as [st1|] eqn:E; [|done].
    simpl in Hm. injection Hm as <-.
    apply insert_message_kept in E as (Hc & Hms & Hfresh & Hfk).
    split_and!; [done..|]. simpl. rewrite Hms. apply lookup_insert_eq.
Qed.

Lemma send_message_refusals_witness :
  send_message first_call (mkSendBody (Some "p9_c9") (Some "Hello") None None) storeA =
  (Status500, storeA, [mkLog Error "Error sending message"]).
Proof.
  refine (proj1 (proj2 (send_message_refusals first_call
                          (mkSendBody (Some "p9_c9") (Some "Hello") None None) storeA))
            "p9_c9" "Hello" _ _ _); reflexivity.
Defined.

(** ** The read routes *)

Lemma elem_of_rows {A} (m : gmap string A) (x : A) :
  x ∈ rows m ↔ ∃ k, m !! k = Some x.
Proof.
  unfold rows. rewrite list_elem_of_fmap. split.
  - intros ([k y] & -> & Hin). exists k. by apply elem_of_map_to_list.
  - intros [k Hk]. exists (k, x). split; [done|]. by apply elem_of_map_to_list.
Qed.

Lemma elem_of_get_messages conv st m :
  m ∈ get_messages conv st ↔ conversationId m = conv ∧ ∃ k, messages st !! k = Some m.
Proof.
  unfold get_messages. rewrite merge_sort_Permutation, list_elem_of_filter.
  by rewrite elem_of_rows.
Qed.

(** X8. GET /messages/:conversationId answers with the stored messages of
    that conversation and no others, in the order of their timestamps; for
    a conversation without messages, a conversation that is not stored
    included, the answer is the empty list. *)
Theorem get_messages_of_conversation conv st :
  StronglySorted by_time (get_messages conv st) ∧
  (∀ m, m ∈ get_messages conv st ↔
        conversationId m = conv ∧ ∃ k, messages st !! k = Some m) ∧
  (length (get_messages conv st) ≤ size (messages st))%nat ∧
  ((∀ k m, messages st !! k = Some m → conversationId m ≠ conv) →
   get_messages conv st = []).
Proof.
  split_and!.
  - apply StronglySorted_merge_sort; apply _.
  - intros m. apply elem_of_get_messages.
  - unfold get_messages. rewrite merge_sort_Permutation.
    etrans; [apply length_filter|].
    unfold rows. by rewrite length_fmap, length_map_to_list.
  - intros Hnone.
    destruct (get_messages conv st) as [|m l] eqn:E; [done|].
    assert (m ∈ get_messages conv st) as Hin by (rewrite E; left).
    apply elem_of_get_messages in Hin as [Hc [k Hk]]. by destruct (Hnone k m Hk).
Qed.

Lemma get_messages_of_conversation_witness :
  get_messages "p1_c2" storeA = [].
Proof.
  refine (proj2 (proj2 (proj2 (get_messages_of_conversation "p1_c2" storeA))) _).
  intros k m Hk Hc. simpl in Hk.
  apply lookup_singleton_Some in Hk as [_ <-]. discriminate.
Defined.

Lemma send_message_answer_stored env body st row :
  (send_message env body st).1.1 = Json row →
  messages (store_of (send_message env body st)) !! msg_id row = Some row.
Proof.
  unfold send_message, store_of.
  destruct (truthy_text (sb_conversationId body)) as [conv|]; [|done].
  destruct (truthy_text (sb_text body)) as [txt|]; [|done].
  destruct (insert_message _ st) as [st1|] eqn:E; [|done].
  simpl. intros [= <-].
  apply insert_message_kept in E as (_ & -> & _). apply lookup_insert_eq.
Qed.

(** X9. What is written is served. In a store where the pair has at most
    one conversation and none has the empty identifier, a text message with
    a storable timestamp and an identifier that is not stored yet is, once
    handled, in the answer of GET /messages for the pair's conversation, as
    an incoming unread message with the event's text and time. The message
    that a send-message call answers with is in the answer of GET /messages
    for its conversation. *)
Theorem stored_message_is_served page customer txt ts ev m k env body st :
  (truthy_text (msg_text m) = Some txt →
   toISOString (ev_timestamp ev) = Some ts →
   storable ts = true →
   pair_unique page customer (conversations st) →
   conversations st !! "" = None →
   mid m = Some k → messages st !! k = None →
   ∃ cid,
     select_conversation page customer
       (conversations (handleMessage ev m page customer st).1) = Some cid ∧
     mkMessage k cid customer (userName customer) txt ts true false ∈
       get_messages cid (handleMessage ev m page customer st).1) ∧
  (∀ row, (send_message env body st).1.1 = Json row →
     row ∈ get_messages (conversationId row) (store_of (send_message env body st))).
Proof.
  split.
  - intros Ht Hts Hst Hu Hid Hk Hfresh.
    rewrite (handleMessage_text page customer txt ts) by done. rewrite Hk.
    destruct (select_conversation page customer (conversations st)) as [c0|] eqn:Hs.
    + destruct (select_Some_sole_row _ _ _ _ Hs) as [r Hr].
      assert (c0 ≠ "") as Hc0.
      { intros ->. destruct Hr as [Hr _]. by rewrite Hid in Hr. }
      exists c0. split.
      * by rewrite handleMessage_after_conversations.
      * apply elem_of_get_messages. split; [done|]. exists k.
        rewrite handleMessage_after_fresh; [|done|done|].
        -- unfold conversation_of. rewrite truthy_text_Some by done.
           apply lookup_insert_eq.
        -- intros c [= <-]. split; [done|]. destruct Hr as [Hr _]. eauto.
    + exists (conversationIdOf page customer). split.
      * rewrite handleMessage_after_conversations. simpl.
        eapply select_sole_row. apply upsert_sole_row; [done|].
        by apply select_None_absent.
      * apply elem_of_get_messages. split; [done|]. exists k.
        rewrite handleMessage_after_fresh; [|done|done|done].
        apply lookup_insert_eq.
  - intros row Hrow. apply elem_of_get_messages. split; [done|].
    exists (msg_id row). by apply send_message_answer_stored.
Qed.

Lemma stored_message_is_served_witness :
  ∃ cid,
    select_conversation "p1" "c1"
      (conversations (handleMessage eventA (mkMessagePart (Some "m1") (Some "Hi"))
                        "p1" "c1" empty_store).1) = Some cid ∧
    mkMessage "m1" cid "c1" (userName "c1") "Hi" 1700000000000 true false ∈
      get_messages cid (handleMessage eventA (mkMessagePart (Some "m1") (Some "Hi"))
                          "p1" "c1" empty_store).1.
Proof.
  refine (proj1 (stored_message_is_served "p1" "c1" "Hi" 1700000000000 eventA
                   (mkMessagePart (Some "m1") (Some "Hi")) "m1" first_call hello_body
                   empty_store) _ _ _ _ _ _ _); try reflexivity.
  intros k1 k2 r1 r2 H1. simpl in H1. rewrite lookup_empty in H1. discriminate.
Defined.

(** ** The sync routes *)

Lemma elem_of_conversations_of_page pg n st r :
  r ∈ conversations_of_page pg n st →
  pageId r = pg ∧ ∃ k, conversations st !! k = Some r.
Proof.
  unfold conversations_of_page. intros Hin.
  apply elem_of_take in Hin as (i & Hi & _).
  assert (r ∈ merge_sort newest_first
                (filter (λ r, pageId r = pg) (rows (conversations st)))) as Hr
    by (apply list_elem_of_lookup; eauto).
  rewrite merge_sort_Permutation, list_elem_of_filter, elem_of_rows in Hr. done.
Qed.

(** X10. The two sync routes answer 400 without a page identifier, the
    empty string included. With one, they answer with stored conversations
    of that page only, newest last-timestamp first, at most [limit] of
    them, 5 and 50 when the request names no limit; a conversation of the
    page that is left out is no newer than any that is returned, and is
    left out only when the limit is reached. *)
Theorem sync_answers_newest pg limit st :
  pg ≠ "" →
  let n := default 5%nat limit in
  let found := conversations_of_page pg n st in
  sync_conversations (Some pg) limit st = SyncJson found ∧
  sync_full_history (Some pg) limit st =
    SyncJson (conversations_of_page pg (default 50%nat limit) st) ∧
  sync_conversations None limit st = SyncStatus400 "pageId is required" ∧
  sync_conversations (Some "") limit st = SyncStatus400 "pageId is required" ∧
  (length found ≤ n)%nat ∧
  StronglySorted newest_first found ∧
  (∀ r, r ∈ found → pageId r = pg ∧ ∃ k, conversations st !! k = Some r) ∧
  (∀ k r, conversations st !! k = Some r → pageId r = pg → r ∉ found →
     length found = n ∧ ∀ r', r' ∈ found → lastTimestamp r ≤ lastTimestamp r').
Proof.
  intros Hpg n found.
  set (sorted := merge_sort newest_first
                   (filter (λ r, pageId r = pg) (rows (conversations st)))).
  assert (StronglySorted newest_first sorted) as Hsorted
    by (apply StronglySorted_merge_sort; apply _).
  assert (found = take n sorted) as Hfound by done.
  split_and!.
  - unfold sync_conversations. by rewrite truthy_text_Some.
  - unfold sync_full_history. by rewrite truthy_text_Some.
  - done.
  - done.
  - rewrite Hfound, length_take. lia.
  - rewrite Hfound. rewrite <- (take_drop n sorted) in Hsorted.
    by apply StronglySorted_app_1_l in Hsorted.
  - intros r. apply elem_of_conversations_of_page.
  - intros k r Hk Hp Hout.
    assert (r ∈ sorted) as Hin.
    { unfold sorted. rewrite merge_sort_Permutation, list_elem_of_filter, elem_of_rows.
      eauto. }
    rewrite <- (take_drop n sorted) in Hin, Hsorted.
    apply elem_of_app in Hin as [Hin|Hin]; [by rewrite Hfound in Hout|].
    split.
    + rewrite Hfound. apply length_take_le.
      destruct (decide (n ≤ length sorted)%nat) as [|Hgt]; [done|].
      rewrite drop_ge in Hin by lia. by apply elem_of_nil in Hin.
    + intros r' Hr'. rewrite Hfound in Hr'.
      by apply (StronglySorted_app_1_elem_of _ _ _ r' r Hsorted).
Qed.

Lemma sync_answers_newest_witness :
  sync_conversations (Some "p1") (Some 1%nat) two_conversations =
  SyncJson (conversations_of_page "p1" (default 5%nat (Some 1%nat)) two_conversations).
Proof.
  refine (proj1 (sync_answers_newest "p1" (Some 1%nat) two_conversations _)).
  discriminate.
Defined.

Example sync_one_of_two :
  sync_conversations (Some "p1") (Some 1%nat) two_conversations = SyncJson [conversationA].
Proof. by vm_compute. Qed.

(** * Further properties of the chat window *)

(** ** The guards of handleSend *)

(** X11. A call of handleSend issues a request only when no send is under
    way, the trimmed text is not empty, a page with the conversation's page
    identifier is connected with a token, and the text, unless it comes
    from the library, passes the content check; the request goes to the
    conversation's customer with that text and token, and the optimistic
    message carries the same text as outgoing. While the request is out no
    further call issues a request, and however the request settles the
    sending flag is down again. An approved link with U+00A0 and a word
    behind it is sent, trimmed of the white space around it; the link with
    a comma behind it is not, and neither is an input of U+00A0 and U+2003
    only. *)
Theorem handleSend_guards props env forcedText st st' rq optimistic :
  handleSend_begin props env forcedText st = Awaiting st' rq optimistic →
  isSending st = false ∧
  rq_text rq = trim (default (inputText st) (truthy_text forcedText)) ∧
  rq_text rq ≠ "" ∧
  rq_recipient rq = customerId (conversation props) ∧
  (∃ i page, pages props !! i = Some page ∧
             page_id page = pageId (conversation props) ∧
             accessToken page = rq_token rq ∧ rq_token rq ≠ "") ∧
  (truthy_text forcedText = None →
   validateMessageContent (approvedLinks props) (rq_text rq) = true) ∧
  (text optimistic = rq_text rq ∧ isIncoming optimistic = false ∧
   conversationId optimistic = conv_id (conversation props)) ∧
  isSending st' = true ∧
  (∀ props' env' forced', request_of (handleSend_begin props' env' forced' st') = None) ∧
  (∀ res, isSending (handleSend_settle forcedText optimistic res st') = false) ∧
  request_of (handleSend_begin link_props first_call None
                (typed (" https://shop.example/returns" +:+ NBSP +:+ "thanks" +:+ NBSP))) =
    Some (mkRequest "c1" ("https://shop.example/returns" +:+ NBSP +:+ "thanks")
            "EAAB-token" None) ∧
  request_of (handleSend_begin link_props first_call None
                (typed "https://shop.example/returns, thanks")) = None ∧
  request_of (handleSend_begin link_props first_call None (typed (NBSP +:+ EM_SPACE))) =
    None.
Proof.
  unfold handleSend_begin.
  set (txt := trim (default (inputText st) (truthy_text forcedText))).
  destruct (bool_decide (txt = "")) eqn:Hempty; [done|].
  destruct (isSending st) eqn:Hsending; [done|]. simpl.
  destruct (negb (bool_decide (is_Some (truthy_text forcedText)))
            && negb (validateMessageContent (approvedLinks props) txt)) eqn:Hcheck;
    [done|].
  destruct (list_find _ (pages props)) as [[i currentPage]|] eqn:Hfind; [|done].
  apply list_find_Some in Hfind as (Hi & Hpage & _).
  destruct (bool_decide (accessToken currentPage = "")) eqn:Htoken; [done|].
  apply bool_decide_eq_false in Hempty, Htoken.
  destruct (bool_decide (_ ∈ sentMessageIds _)); [done|].
  intros [= <- <- <-].
  split_and!; [..|by vm_compute|by vm_compute|by vm_compute]; simpl; try done.
  - by exists i, currentPage.
  - intros Hforced. rewrite Hforced in Hcheck. simpl in Hcheck.
    by destruct (validateMessageContent (approvedLinks props) txt).
  - intros props' env' forced'. unfold handleSend_begin. simpl.
    by rewrite orb_true_r.
  - by intros [k|err].
Qed.

Lemma handleSend_guards_witness :
  isSending typed_hello = false.
Proof.
  refine (proj1 (handleSend_guards agent_props first_call None typed_hello
           (mkChat [optimistic_hello] "Hello " true None false false
              {[ "temp-1700000100000-k3j2h1g0f" ]})
           (mkRequest "c1" "Hello" "EAAB-token" None) optimistic_hello _)).
  vm_compute. reflexivity.
Defined.

(** ** What the window shows *)

Lemma sort_insert_Permutation m l : sort_insert m l ≡ₚ m :: l.
Proof.
  induction l as [|x l IH]; [done|]. simpl. case_bool_decide; [done|].
  rewrite IH. apply Permutation_swap.
Qed.

Lemma sort_by_time_Permutation l : sort_by_time l ≡ₚ l.
Proof.
  induction l as [|x l IH]; [done|].
  unfold sort_by_time in *. simpl. by rewrite sort_insert_Permutation, IH.
Qed.

Lemma sort_insert_sorted m l :
  StronglySorted by_time l → StronglySorted by_time (sort_insert m l).
Proof.
  induction 1 as [|x l Hl IH Hx]; simpl.
  - repeat constructor.
  - case_bool_decide as Hm.
    + constructor; [by constructor|]. constructor; [done|].
      eapply Forall_impl; [exact Hx|]. unfold by_time. intros y Hy. lia.
    + constructor; [done|]. rewrite sort_insert_Permutation.
      constructor; [|done]. unfold by_time. lia.
Qed.

Lemma sort_by_time_sorted l : StronglySorted by_time (sort_by_time l).
Proof.
  induction l as [|x l IH]; [constructor|]. by apply sort_insert_sorted.
Qed.

Lemma elem_of_chatMessages conv v m :
  m ∈ chatMessages conv v ↔ conversationId m = conv_id conv ∧ m ∈ v.
Proof.
  unfold chatMessages. by rewrite sort_by_time_Permutation, list_elem_of_filter.
Qed.

(** X12. The window shows the messages of the view that belong to its
    conversation and no others, each as often as the view holds it, in the
    order of their timestamps. A message of another conversation that is
    added to the view leaves the window as it is, and the messages that
    GET /messages serves for the conversation are all shown. *)
Theorem chatMessages_shows conv v st :
  StronglySorted by_time (chatMessages conv v) ∧
  chatMessages conv v ≡ₚ filter (λ m, conversationId m = conv_id conv) v ∧
  (∀ m, m ∈ chatMessages conv v ↔ conversationId m = conv_id conv ∧ m ∈ v) ∧
  (∀ m, conversationId m ≠ conv_id conv →
        chatMessages conv (addMessage m v) = chatMessages conv v) ∧
  chatMessages conv (get_messages (conv_id conv) st) ≡ₚ get_messages (conv_id conv) st.
Proof.
  split_and!.
  - apply sort_by_time_sorted.
  - apply sort_by_time_Permutation.
  - intros m. apply elem_of_chatMessages.
  - intros m Hm. unfold chatMessages, addMessage. case_bool_decide; [done|].
    rewrite filter_app, filter_cons_False, filter_nil by done.
    by rewrite (right_id_L [] (++)).
  - unfold chatMessages. rewrite sort_by_time_Permutation.
    unfold get_messages. rewrite !merge_sort_Permutation.
    rewrite list_filter_filter.
    induction (rows (messages st)) as [|m l IH]; [done|].
    destruct (decide (conversationId m = conv_id conv)) as [Hm|Hm].
    + rewrite !filter_cons_True by done. by rewrite IH.
    + rewrite !filter_cons_False by tauto. done.
Qed.

Lemma chatMessages_shows_witness :
  chatMessages conversationA
    (addMessage (mkMessage "m2" "p1_c2" "c2" "User c2" "Yo" 1699999999000 true false)
       [messageA]) =
  chatMessages conversationA [messageA].
Proof.
  refine (proj1 (proj2 (proj2 (proj2
    (chatMessages_shows conversationA [messageA] empty_store)))) _ _).
  simpl. discriminate.
Defined.

(** ** White space *)

Lemma append_cons a (s t : string) : String a s +:+ t = String a (s +:+ t).
Proof. done. Qed.

Lemma append_empty_r (s : string) : s +:+ "" = s.
Proof. induction s as [|a s IH]; [done|]. by rewrite append_cons, IH. Qed.

Lemma space1_true x : space1 x = true → (x < 128)%N.
Proof. intros H. to_prop H. intuition lia. Qed.

Lemma space2_true x y : space2 x y = true → (192 ≤ x)%N ∧ continuation y.
Proof. intros H. to_prop H. unfold continuation. intuition lia. Qed.

Lemma space3_true x y z :
  space3 x y z = true → (192 ≤ x)%N ∧ continuation y ∧ continuation z.
Proof. intros H. to_prop H. unfold continuation. intuition lia. Qed.

Lemma space_width_lead a s :
  space_width (String a s) ≠ 0%nat → ¬ continuation (code a).
Proof.
  unfold space_width, continuation.
  destruct (space1 (code a)) eqn:E1; [apply space1_true in E1; lia|].
  destruct s as [|b s]; [done|].
  destruct (space2 (code a) (code b)) eqn:E2; [apply space2_true in E2; lia|].
  destruct s as [|c s]; [done|].
  destruct (space3 (code a) (code b) (code c)) eqn:E3; [apply space3_true in E3; lia|done].
Qed.

Lemma space_width_append s t :
  space_width s ≠ 0%nat → space_width (s +:+ t) = space_width s.
Proof.
  destruct s as [|a [|b [|c s]]]; [done|..]; rewrite ?append_cons.
  - change ("" +:+ t) with t. unfold space_width.
    destruct (space1 (code a)); [done|]. done.
  - change ("" +:+ t) with t. unfold space_width.
    destruct (space1 (code a)); [done|].
    destruct (space2 (code a) (code b)); [done|]. done.
  - done.
Qed.

Lemma space_width_break s t :
  s ≠ "" → breaks t → space_width (s +:+ t) = space_width s.
Proof.
  intros Hs [->|Ht]; [by rewrite append_empty_r|].
  destruct t as [|d t]; [done|]. apply space_width_lead in Ht.
  destruct s as [|a [|b [|c s]]]; [done|..]; rewrite ?append_cons;
    change ("" +:+ String d t) with (String d t); [| |done].
  - unfold space_width. destruct (space1 (code a)); [done|].
    destruct (space2 (code a) (code d)) eqn:E2; [by apply space2_true in E2 as [_ ?]|].
    destruct t as [|e t]; [done|].
    by destruct (space3 (code a) (code d) (code e)) eqn:E3;
      [apply space3_true in E3 as (_ & ? & _)|].
  - unfold space_width. destruct (space1 (code a)); [done|].
    destruct (space2 (code a) (code b)); [done|].
    by destruct (space3 (code a) (code b) (code d)) eqn:E3;
      [apply space3_true in E3 as (_ & _ & ?)|].
Qed.

Lemma append_assoc (s t u : string) : (s +:+ t) +:+ u = s +:+ t +:+ u.
Proof. induction s as [|a s IH]; [done|]. by rewrite !append_cons, IH. Qed.

Lemma space_width_plain a s :
  (33 ≤ code a)%N → (code a < 128)%N → space_width (String a s) = 0%nat.
Proof.
  intros H1 H2. unfold space_width.
  destruct (space1 (code a)) eqn:E1; [to_prop E1; intuition lia|].
  destruct s as [|b s]; [done|].
  destruct (space2 (code a) (code b)) eqn:E2; [apply space2_true in E2; lia|].
  destruct s as [|c s]; [done|].
  destruct (space3 (code a) (code b) (code c)) eqn:E3; [apply space3_true in E3; lia|done].
Qed.

(** *** The run without white space *)

Lemma non_space_run_prefix s :
  ∃ rest, s = non_space_run s +:+ rest ∧ breaks rest.
Proof.
  induction s as [|a s (rest & IH & Hrest)]; [exists ""; split; [done|by left]|].
  cbn [non_space_run]. destruct (Nat.eqb_spec (space_width (String a s)) 0) as [E|E].
  - exists rest. split; [|done]. by rewrite append_cons, <-IH.
  - exists (String a s). split; [done|by right].
Qed.

Lemma has_space_run s : has_space (non_space_run s) = false.
Proof.
  induction s as [|a s IH]; [done|]. cbn [non_space_run].
  destruct (Nat.eqb_spec (space_width (String a s)) 0) as [E|E]; [|done].
  cbn [has_space]. rewrite IH, orb_false_r.
  destruct (Nat.eqb_spec (space_width (String a (non_space_run s))) 0) as [E'|E'];
    [done|].
  destruct (non_space_run_prefix s) as (rest & Hs & _).
  apply (space_width_append _ rest) in E' as E''.
  rewrite append_cons, <-Hs in E''. congruence.
Qed.

Lemma non_space_run_whole u rest :
  has_space u = false → breaks rest → non_space_run (u +:+ rest) = u.
Proof.
  intros Hu Hrest. induction u as [|a u IH].
  - change ("" +:+ rest) with rest. destruct Hrest as [->|Hrest]; [done|].
    destruct rest as [|d t]; [done|]. cbn [non_space_run].
    by destruct (Nat.eqb_spec (space_width (String d t)) 0).
  - cbn [has_space] in Hu. apply orb_false_iff in Hu as [Ha Hu].
    apply negb_false_iff, Nat.eqb_eq in Ha.
    rewrite append_cons. cbn [non_space_run]. rewrite <-append_cons.
    rewrite space_width_break, Ha by done. simpl. by rewrite IH.
Qed.

(** *** Where a link starts *)

Lemma followed_cons c p b s :
  followed (String c p) (String b s) = bool_decide (c = b) && followed p s.
Proof. unfold followed. simpl. by destruct (bool_decide (c = b)). Qed.

Lemma followed_break p : ∀ w rest,
  plain p = true → breaks rest → followed p (w +:+ rest) = followed p w.
Proof.
  induction p as [|c p IH]; intros w rest Hp Hrest.
  - destruct w as [|b w].
    + change ("" +:+ rest) with rest. unfold followed. simpl.
      destruct Hrest as [->|Hrest]; [done|]. destruct rest as [|d t]; [done|].
      by destruct (Nat.eqb_spec (space_width (String d t)) 0).
    + unfold followed. rewrite append_cons. simpl. rewrite <-append_cons.
      by rewrite space_width_break.
  - cbn [plain] in Hp. apply andb_true_iff in Hp as [Hc Hp].
    apply andb_true_iff in Hc as [Hc1 Hc2].
    apply N.leb_le in Hc1. apply N.ltb_lt in Hc2.
    destruct w as [|b w].
    + change ("" +:+ rest) with rest.
      destruct Hrest as [->|Hrest]; [done|]. destruct rest as [|d t]; [done|].
      rewrite followed_cons. case_bool_decide as Hcd; [|done]. subst d.
      by rewrite space_width_plain in Hrest.
    + rewrite append_cons, !followed_cons. by rewrite IH.
Qed.

Lemma url_starts_break w rest :
  breaks rest → url_starts (w +:+ rest) = url_starts w.
Proof. intros Hrest. unfold url_starts. by rewrite !followed_break. Qed.

Lemma url_starts_run s : url_starts s = true → url_starts (non_space_run s) = true.
Proof.
  destruct (non_space_run_prefix s) as (rest & Hs & Hrest).
  intros H. rewrite Hs in H. by rewrite url_starts_break in H.
Qed.

Lemma url_starts_http s : url_starts s = true → starts_with "http" s = true.
Proof.
  unfold url_starts, followed.
  destruct s as [|a1 [|a2 [|a3 [|a4 s]]]]; simpl;
    rewrite ?andb_false_r; try done.
  repeat case_bool_decide; simpl; rewrite ?andb_false_r; done.
Qed.

Lemma url_starts_h s : url_starts s = true → ∃ s', s = "h" +:+ s'.
Proof.
  intros H%url_starts_http. destruct s as [|a s]; [done|]. simpl in H.
  case_bool_decide; [|done]. subst a. by exists s.
Qed.

(** *** The links found *)

Lemma match_urls_skip u : ∀ n rest,
  match_urls (String.length u + n) (u +:+ rest) =
  match rest with EmptyString => [] | _ => match_urls n rest end.
Proof.
  induction u as [|a u IH]; intros n rest.
  - change ("" +:+ rest) with rest. simpl. destruct rest, n; done.
  - rewrite append_cons. simpl. apply IH.
Qed.

Lemma match_urls_after u rest :
  match_urls (String.length u) (u +:+ rest) = match_urls 0 rest.
Proof.
  rewrite <-(Nat.add_0_r (String.length u)), match_urls_skip. by destruct rest.
Qed.

Lemma match_urls_link u rest :
  url_starts u = true → has_space u = false → breaks rest →
  match_urls 0 (u +:+ rest) = u :: match_urls 0 rest.
Proof.
  intros Hu Hs Hrest. destruct u as [|a u]; [done|].
  rewrite append_cons. cbn [match_urls]. rewrite <-append_cons.
  rewrite url_starts_break, Hu, non_space_run_whole by done.
  simpl. by rewrite Nat.sub_0_r, match_urls_after.
Qed.

Lemma match_urls_found s : ∀ n u,
  u ∈ match_urls n s →
  ∃ pre suf, s = pre +:+ suf ∧ url_starts suf = true ∧ u = non_space_run suf.
Proof.
  induction s as [|a s IH]; intros n u Hu; [by apply elem_of_nil in Hu|].
  assert (∀ m, u ∈ match_urls m s →
            ∃ pre suf, String a s = pre +:+ suf ∧ url_starts suf = true ∧
                       u = non_space_run suf) as Hrec.
  { intros m Hm. destruct (IH m u Hm) as (pre & suf & -> & Hsuf & ->).
    by exists (String a pre), suf. }
  cbn [match_urls] in Hu. destruct n as [|n]; [|by eapply Hrec].
  destruct (url_starts (String a s)) eqn:Hstart; [|by eapply Hrec].
  apply elem_of_cons in Hu as [->|Hu]; [|by eapply Hrec].
  by exists "", (String a s).
Qed.

Lemma match_urls_none s :
  includes "http" s = false → match_urls 0 s = [].
Proof.
  induction s as [|a s IH]; [done|].
  intros Hinc. cbn [includes] in Hinc. apply orb_false_iff in Hinc as [Hhere Hrest].
  cbn [match_urls].
  destruct (url_starts (String a s)) eqn:Hstart; [|by apply IH].
  apply url_starts_http in Hstart. congruence.
Qed.

Lemma match_urls_past pre : ∀ s,
  includes "http" pre = false → url_starts s = true →
  match_urls 0 (pre +:+ s) = match_urls 0 s.
Proof.
  induction pre as [|a pre IH]; intros s Hpre Hs; [done|].
  cbn [includes] in Hpre. apply orb_false_iff in Hpre as [Hhere Hpre].
  rewrite append_cons. cbn [match_urls]. rewrite <-append_cons.
  destruct (url_starts (String a pre +:+ s)) eqn:Hstart; [|by apply IH].
  apply url_starts_http in Hstart. apply url_starts_h in Hs as [s' ->].
  destruct pre as [|b [|c [|d pre]]]; simpl in Hstart, Hhere;
    repeat case_bool_decide; simplify_eq; done.
Qed.

Lemma match_urls_nil_iff s :
  match_urls 0 s = [] ↔ ∀ pre suf, s = pre +:+ suf → url_starts suf = false.
Proof.
  induction s as [|a s IH].
  - split; [|done]. intros _ pre suf Hs. destruct pre, suf; done.
  - cbn [match_urls]. destruct (url_starts (String a s)) eqn:Hstart.
    + split; [done|]. intros H. specialize (H "" (String a s) eq_refl). congruence.
    + rewrite IH. split.
      * intros H pre suf Hs. destruct pre as [|b pre].
        -- change ("" +:+ suf) with suf in Hs. by subst suf.
        -- rewrite append_cons in Hs. injection Hs as -> ->. by apply (H pre).
      * intros H pre suf ->. by apply (H (String a pre)).
Qed.


(** *** The white space characters *)

Lemma white_space_widths :
  Forall (λ w, space_width w = String.length w ∧ w ≠ "") white_space.
Proof.
  apply Forall_forall. intros w Hw.
  assert (forallb (λ w, Nat.eqb (space_width w) (String.length w)
                        && negb (bool_decide (w = ""))) white_space = true) as H
    by by vm_compute.
  rewrite forallb_forall in H. apply list_elem_of_In, H in Hw.
  apply andb_true_iff in Hw as [H1 H2]. apply Nat.eqb_eq in H1.
  apply negb_true_iff, bool_decide_eq_false in H2. done.
Qed.

Lemma space_width_of_white w s :
  w ∈ white_space → space_width (w +:+ s) = String.length w ∧ w ≠ "".
Proof.
  intros Hw. pose proof white_space_widths as H.
  rewrite Forall_forall in H. destruct (H w Hw) as [Hlen Hne]. split; [|done].
  rewrite space_width_append; [done|]. rewrite Hlen. by destruct w.
Qed.

Lemma starts_with_append w : ∀ s, starts_with w s = true → ∃ s', s = w +:+ s'.
Proof.
  induction w as [|c w IH]; intros s H; [by exists s|].
  destruct s as [|a s]; [done|]. simpl in H.
  apply andb_true_iff in H as [Hc H]. apply bool_decide_eq_true in Hc as ->.
  destruct (IH s H) as [s' ->]. by exists s'.
Qed.

Lemma starts_with_refl w s : starts_with w (w +:+ s) = true.
Proof.
  induction w as [|c w IH]; [done|]. rewrite append_cons. simpl.
  by rewrite bool_decide_eq_true_2.
Qed.

Lemma code_eq a n : code a = n → a = Ascii.ascii_of_N n.
Proof. intros <-. unfold code. by rewrite Ascii.ascii_N_embedding. Qed.

Lemma space_width_starts s n :
  space_width s = S n →
  ∃ w, w ∈ white_space ∧ String.length w = S n ∧ starts_with w s = true.
Proof.
  unfold space_width. destruct s as [|a s]; [done|].
  destruct (space1 (code a)) eqn:E1.
  { intros [= <-]. to_prop E1.
    assert (code a = 9 ∨ code a = 10 ∨ code a = 11 ∨ code a = 12 ∨ code a = 13
            ∨ code a = 32)%N as H by lia.
    clear E1. destruct_or!; apply code_eq in H as ->.
    - white [9%N]. - white [10%N]. - white [11%N]. - white [12%N]. - white [13%N].
    - white [32%N]. }
  destruct s as [|b s]; [done|].
  destruct (space2 (code a) (code b)) eqn:E2.
  { intros [= <-]. to_prop E2. destruct E2 as [Ha%code_eq Hb%code_eq]. subst.
    white [194; 160]%N. }
  destruct s as [|c s]; [done|].
  destruct (space3 (code a) (code b) (code c)) eqn:E3; [|done].
  intros [= <-]. to_prop E3.
  assert (code a = 225 ∧ code b = 154 ∧ code c = 128
          ∨ code a = 226 ∧ code b = 128
            ∧ (code c = 128 ∨ code c = 129 ∨ code c = 130 ∨ code c = 131
               ∨ code c = 132 ∨ code c = 133 ∨ code c = 134 ∨ code c = 135
               ∨ code c = 136 ∨ code c = 137 ∨ code c = 138 ∨ code c = 168
               ∨ code c = 169 ∨ code c = 175)
          ∨ code a = 226 ∧ code b = 129 ∧ code c = 159
          ∨ code a = 227 ∧ code b = 128 ∧ code c = 128
          ∨ code a = 239 ∧ code b = 187 ∧ code c = 191)%N as H by lia.
  clear E1 E2 E3.
  destruct H as [(Ha & Hb & Hc)|[(Ha & Hb & Hc)|[(Ha & Hb & Hc)|[(Ha & Hb & Hc)|(Ha & Hb & Hc)]]]];
    apply code_eq in Ha as ->; apply code_eq in Hb as ->;
    [apply code_eq in Hc as ->| |apply code_eq in Hc as ->..].
  - white [225; 154; 128]%N.
  - destruct_or!; apply code_eq in Hc as ->.
    + white [226; 128; 128]%N. + white [226; 128; 129]%N. + white [226; 128; 130]%N.
    + white [226; 128; 131]%N. + white [226; 128; 132]%N. + white [226; 128; 133]%N.
    + white [226; 128; 134]%N. + white [226; 128; 135]%N. + white [226; 128; 136]%N.
    + white [226; 128; 137]%N. + white [226; 128; 138]%N. + white [226; 128; 168]%N.
    + white [226; 128; 169]%N. + white [226; 128; 175]%N.
  - white [226; 129; 159]%N.
  - white [227; 128; 128]%N.
  - white [239; 187; 191]%N.
Qed.

Lemma space_width_white s :
  space_width s ≠ 0%nat ↔ ∃ w, w ∈ white_space ∧ starts_with w s = true.
Proof.
  split.
  - destruct (space_width s) as [|n] eqn:E; [done|]. intros _.
    destruct (space_width_starts s n E) as (w & Hw & _ & Hs). by exists w.
  - intros (w & Hw & [s' ->]%starts_with_append).
    destruct (space_width_of_white w s' Hw) as [-> Hne]. by destruct w.
Qed.

(** *** trim *)

Lemma skip_spaces_drop w : ∀ s,
  skip_spaces (String.length w) (w +:+ s) = skip_spaces 0 s.
Proof.
  induction w as [|c w IH]; intros s; [done|]. rewrite append_cons. cbn. apply IH.
Qed.

Lemma trim_start_white w s : w ∈ white_space → trim_start (w +:+ s) = trim_start s.
Proof.
  intros Hw. destruct (space_width_of_white w s Hw) as [Hlen Hne].
  destruct w as [|c w]; [done|]. unfold trim_start.
  rewrite append_cons in *. cbn [skip_spaces]. rewrite Hlen. simpl.
  apply skip_spaces_drop.
Qed.

Lemma trim_start_join ws s :
  Forall (λ w, w ∈ white_space) ws → trim_start (join ws +:+ s) = trim_start s.
Proof.
  induction 1 as [|w ws Hw _ IH]; [done|].
  unfold join in *. cbn [foldr]. by rewrite append_assoc, trim_start_white.
Qed.

Lemma trim_join ws : Forall (λ w, w ∈ white_space) ws → trim (join ws) = "".
Proof.
  intros H. unfold trim. rewrite <-(append_empty_r (join ws)).
  by rewrite trim_start_join.
Qed.

Lemma drop_string_append w s : drop_string (String.length w) (w +:+ s) = s.
Proof. induction w as [|c w IH]; [by destruct s|]. by rewrite append_cons. Qed.

Lemma skip_spaces_blank s : ∀ n,
  skip_spaces n s = "" →
  ∃ ws, Forall (λ w, w ∈ white_space) ws ∧ drop_string n s = join ws.
Proof.
  induction s as [|a s IH]; intros n H.
  - exists []. split; [done|]. by destruct n.
  - destruct n as [|n]; [|by apply IH].
    cbn [skip_spaces] in H.
    destruct (space_width (String a s)) as [|m] eqn:E; [done|].
    destruct (space_width_starts _ _ E) as (w & Hw & Hlen & Hs).
    destruct (starts_with_append _ _ Hs) as [s' Hs'].
    destruct w as [|c w]; [done|]. rewrite append_cons in Hs'.
    injection Hs' as <- ->. injection Hlen as <-.
    destruct (IH _ H) as (ws & Hws & Hdrop). rewrite drop_string_append in Hdrop.
    exists (String a w :: ws). split; [by constructor|].
    simpl. unfold join. simpl. by rewrite Hdrop.
Qed.

Lemma skip_spaces_stops s : ∀ n,
  skip_spaces n s = "" ∨ space_width (skip_spaces n s) = 0%nat.
Proof.
  induction s as [|a s IH]; intros n; [by left|].
  destruct n as [|n]; [|apply IH]. cbn [skip_spaces].
  destruct (space_width (String a s)) as [|m] eqn:E; [by right|apply IH].
Qed.

Lemma trim_start_stopped s : space_width s = 0%nat → trim_start s = s.
Proof. intros H. destruct s as [|a s]; [done|]. unfold trim_start. cbn. by rewrite H. Qed.

Lemma trim_nil s : trim s = "" → trim_start s = "".
Proof.
  unfold trim. intros H.
  assert (trim_start (trim_start s) = "") as H'.
  { destruct (trim_start s) as [|a t]; [done|]. cbn [trim_end] in H.
    unfold blank in H. by case_bool_decide. }
  destruct (skip_spaces_stops s 0) as [H0|H0]; [done|].
  by rewrite trim_start_stopped in H'.
Qed.

Lemma trim_blank s :
  trim s = "" ↔ ∃ ws, Forall (λ w, w ∈ white_space) ws ∧ s = join ws.
Proof.
  split.
  - intros H%trim_nil. destruct (skip_spaces_blank s 0 H) as (ws & Hws & Hs).
    exists ws. split; [done|]. by destruct s.
  - intros (ws & Hws & ->). by apply trim_join.
Qed.

(** ** The content check *)

Lemma validateMessageContent_forallb approved txt :
  validateMessageContent approved txt =
  forallb (λ url, bool_decide (url ∈ approved)) (match_urls 0 txt).
Proof.
  unfold validateMessageContent.
  destruct (match_urls 0 txt) as [|u urls]; [done|].
  rewrite bool_decide_eq_true_2 by (simpl; lia).
  generalize (u :: urls). intros l. induction l as [|v l IH]; [done|].
  simpl. destruct (bool_decide (v ∈ approved)); [simpl|done]. apply IH.
Qed.

Lemma has_space_white s :
  has_space s = true ↔ ∃ pre w rest, w ∈ white_space ∧ s = pre +:+ w +:+ rest.
Proof.
  split.
  - induction s as [|a s IH]; [done|]. cbn [has_space].
    intros [H|H]%orb_true_iff.
    + apply negb_true_iff, Nat.eqb_neq, space_width_white in H as (w & Hw & Hs).
      apply starts_with_append in Hs as [rest ->]. by exists "", w, rest.
    + destruct (IH H) as (pre & w & rest & Hw & ->). by exists (String a pre), w, rest.
  - intros (pre & w & rest & Hw & ->). induction pre as [|a pre IH].
    + change ("" +:+ w +:+ rest) with (w +:+ rest).
      destruct (space_width_of_white w rest Hw) as [Hlen Hne].
      destruct w as [|c w]; [done|]. rewrite append_cons in *. cbn [has_space].
      rewrite Hlen. done.
    + rewrite append_cons. cbn [has_space]. rewrite IH. apply orb_true_r.
Qed.

(** X13. The content check passes exactly when every link found in the
    text is an approved link, as a whole string. A link found starts with
    http:// or https:// followed by at least one more character, holds no
    white space, and stands in the text up to the next white space
    character or the end of the text. Where the text before a link holds no
    "http", that link is the first one found, whole, and the verdict is that
    of the link and of the rest of the text. Nothing is found exactly when a
    link starts nowhere in the text, so a text that nowhere holds "http"
    passes whatever the approved links are. White space is that of
    ECMAScript, one of its characters at the head of what follows a link
    or anywhere in a string that holds white space: a link ends at U+00A0
    as it does at a space, and the comma behind a link belongs to it. *)
Theorem validateMessageContent_links approved txt :
  (validateMessageContent approved txt = true ↔
   ∀ u, u ∈ match_urls 0 txt → u ∈ approved) ∧
  (∀ u, u ∈ match_urls 0 txt →
     url_starts u = true ∧ has_space u = false ∧
     ∃ pre rest, txt = pre +:+ u +:+ rest ∧ breaks rest) ∧
  (∀ pre u rest,
     txt = pre +:+ u +:+ rest → includes "http" pre = false →
     url_starts u = true → has_space u = false → breaks rest →
     match_urls 0 txt = u :: match_urls 0 rest ∧
     validateMessageContent approved txt =
       bool_decide (u ∈ approved) && validateMessageContent approved rest) ∧
  (match_urls 0 txt = [] ↔ ∀ pre suf, txt = pre +:+ suf → url_starts suf = false) ∧
  (includes "http" txt = false → validateMessageContent approved txt = true) ∧
  (∀ s, breaks s ↔ s = "" ∨ ∃ w, w ∈ white_space ∧ starts_with w s = true) ∧
  (∀ s, has_space s = true ↔
        ∃ pre w rest, w ∈ white_space ∧ s = pre +:+ w +:+ rest) ∧
  match_urls 0 ("see https://shop.example/returns" +:+ NBSP +:+ "or http://a.example") =
    ["https://shop.example/returns"; "http://a.example"] ∧
  validateMessageContent ["https://shop.example/returns"]
    ("https://shop.example/returns" +:+ NBSP +:+ "thanks") = true ∧
  validateMessageContent ["https://shop.example/returns"]
    "see https://shop.example/returns, thanks" = false.
Proof.
  assert (validateMessageContent approved txt = true ↔
          ∀ u, u ∈ match_urls 0 txt → u ∈ approved) as Hiff.
  { rewrite validateMessageContent_forallb, forallb_forall. split.
    - intros H u Hu. apply list_elem_of_In in Hu.
      specialize (H u Hu). by apply bool_decide_eq_true in H.
    - intros H u Hu. apply list_elem_of_In in Hu.
      apply bool_decide_eq_true. by apply H. }
  split_and!; [done| | | | | |apply has_space_white|by vm_compute..].
  - intros u Hu.
    destruct (match_urls_found _ _ _ Hu) as (pre & suf & -> & Hsuf & ->).
    destruct (non_space_run_prefix suf) as (rest & Hrun & Hrest).
    split_and!.
    + by apply url_starts_run.
    + apply has_space_run.
    + exists pre, rest. by rewrite <-Hrun.
  - intros pre u rest -> Hpre Hu Hs Hrest.
    assert (match_urls 0 (pre +:+ u +:+ rest) = u :: match_urls 0 rest) as Hm.
    { rewrite match_urls_past; [by apply match_urls_link|done|].
      by rewrite url_starts_break. }
    split; [done|]. rewrite !validateMessageContent_forallb. by rewrite Hm.
  - apply match_urls_nil_iff.
  - intros Hno. apply Hiff. rewrite match_urls_none by done.
    intros u Hu. by apply elem_of_nil in Hu.
  - intros s. unfold breaks. by rewrite space_width_white.
Qed.

Lemma validateMessageContent_links_witness :
  match_urls 0 ("see https://shop.example/returns" +:+ NBSP +:+ "thanks") =
  "https://shop.example/returns" :: match_urls 0 (NBSP +:+ "thanks").
Proof.
  refine (proj1 (proj1 (proj2 (proj2
    (validateMessageContent_links []
       ("see https://shop.example/returns" +:+ NBSP +:+ "thanks"))))
    "see " "https://shop.example/returns" (NBSP +:+ "thanks") _ _ _ _ _)).
  - reflexivity.
  - reflexivity.
  - reflexivity.
  - reflexivity.
  - right. by vm_compute.
Defined.

(** X14. A call of handleSend on blank input, the text field empty or
    holding white space only and no library text forced, returns at once:
    the state is left as it was, whatever the props and however a request
    would have settled, and no request is issued. The input is blank, its
    trimmed text empty, exactly when it is made of white space characters
    of ECMAScript, U+00A0 and U+2003 among them; white space around a text
    is stripped on both sides. *)
Theorem handleSend_blank props env res forcedText st :
  truthy_text forcedText = None →
  (trim (inputText st) = "" ↔
   ∃ ws, Forall (λ w, w ∈ white_space) ws ∧ inputText st = join ws) ∧
  (trim (inputText st) = "" →
   handleSend props env forcedText res st = st ∧
   request_of (handleSend_begin props env forcedText st) = None) ∧
  trim NBSP = "" ∧ trim EM_SPACE = "" ∧
  trim (NBSP +:+ " Hello" +:+ EM_SPACE +:+ "you " +:+ NBSP) =
    "Hello" +:+ EM_SPACE +:+ "you".
Proof.
  intros Hforced. split_and!; [apply trim_blank| |by vm_compute..].
  intros Hblank.
  assert (handleSend_begin props env forcedText st = Returned st) as Hb.
  { unfold handleSend_begin. rewrite Hforced. simpl. by rewrite Hblank. }
  unfold handleSend. by rewrite Hb.
Qed.

Lemma handleSend_blank_witness :
  handleSend agent_props first_call None (Resolved (Some "m_9f8e7d"))
    (mkChat [messageA] (NBSP +:+ " " +:+ EM_SPACE) false None false false ∅) =
  mkChat [messageA] (NBSP +:+ " " +:+ EM_SPACE) false None false false ∅.
Proof.
  refine (proj1 (proj1 (proj2
    (handleSend_blank agent_props first_call (Resolved (Some "m_9f8e7d")) None
       (mkChat [messageA] (NBSP +:+ " " +:+ EM_SPACE) false None false false ∅) _)) _)).
  - reflexivity.
  - by vm_compute.
Defined.

(** * Further properties of the webhook *)

(** X15. A payload of several entries acts as its entries would in
    payloads of their own, one after the other: when the first entries
    raise nothing in the loop, a payload of them followed by further
    entries leaves the store, and logs the lines, of the further entries
    posted to the store that the first entries leave. *)
Theorem post_batches es1 es2 st st1 l1 :
  process_entries es1 st = (Normal, st1, l1) →
  post (mkBody "page" (Some es1)) st = (EVENT_RECEIVED, st1, l1) ∧
  post (mkBody "page" (Some (es1 ++ es2))) st =
    (EVENT_RECEIVED,
     store_of (post (mkBody "page" (Some es2)) st1),
     l1 ++ log_of (post (mkBody "page" (Some es2)) st1)).
Proof.
  intros H1. unfold post, store_of, log_of. simpl.
  rewrite process_entries_app, H1. split; [done|].
  destruct (process_entries es2 st1) as [[[|] st2] l2]; simpl; [done|].
  by rewrite (assoc_L (++)).
Qed.

Lemma post_batches_witness :
  post (mkBody "page" (Some [mkEntry (Some [eventA])])) empty_store =
  (EVENT_RECEIVED, storeA,
   [mkLog Info "New conversation created";
    mkLog Info "Message stored and pushed to clients (real-time)"]).
Proof.
  refine (proj1 (post_batches [mkEntry (Some [eventA])] [mkEntry None] empty_store storeA
                   _ _)).
  vm_compute. reflexivity.
Defined.

(** X16. An inbound message touches its own conversation only. A
    conversation of another pair keeps its row, unless it is stored under
    the identifier of the message's pair. When the select finds the pair's
    conversation, the row is left exactly as it was: the update that names
    the pending increment call is refused by the store, so a resolved
    conversation is not reopened by a new message, and its unread counter,
    last message and last timestamp do not move either. At most one message
    row is added. *)
Theorem handleMessage_own_conversation ev m page customer st :
  (∀ k r, conversations st !! k = Some r →
     ¬ belongs_to page customer (k, r) → k ≠ conversationIdOf page customer →
     conversations (handleMessage ev m page customer st).1 !! k = Some r) ∧
  (∀ k r, select_conversation page customer (conversations st) = Some k →
     conversations st !! k = Some r →
     conversations (handleMessage ev m page customer st).1 !! k = Some r) ∧
  (size (messages (handleMessage ev m page customer st).1) ≤ S (size (messages st)))%nat.
Proof.
  unfold handleMessage.
  destruct (truthy_text (msg_text m)) as [txt|];
    [|split_and!; [done|done|simpl; lia]].
  destruct (toISOString (ev_timestamp ev)) as [ts|];
    [|split_and!; [done|done|simpl; lia]].
  split_and!.
  - intros k r Hk Hnot Hne. rewrite handleMessage_after_conversations.
    destruct (select_conversation page customer (conversations st)) as [k0|] eqn:Hs;
      simpl.
    + done.
    + unfold upsert_conversation. simpl.
      destruct (storable ts); [|done]. by rewrite lookup_insert_ne.
  - intros k r Hs Hk. by rewrite handleMessage_after_conversations, Hs.
  - unfold handleMessage_after.
    pose proof (resolve_conversation_kept
                  (select_conversation page customer (conversations st))
                  page customer txt ts st) as [Hm1 _].
    destruct (resolve_conversation _ page customer txt ts st) as [st1 l1].
    simpl in Hm1. unfold store_message.
    destruct (mid m ≫= _) as [st2|] eqn:E; simpl; [|rewrite Hm1; lia].
    destruct (mid m) as [k0|]; [|done]. simpl in E.
    destruct (storable ts); [|done].
    apply insert_message_kept in E as (_ & Hm2 & Hfresh & _).
    rewrite Hm2, map_size_insert_None, Hm1 by done. lia.
Qed.

Lemma handleMessage_own_conversation_witness :
  conversations
    (handleMessage eventA (mkMessagePart (Some "m3") (Some "Hi again")) "p1" "c1"
       two_conversations).1 !! "p1_c2" =
  Some (mkConversation "p1_c2" "p1" "c2" "User c2" "" "Yo" 1699999999000 OPEN None 1).
Proof.
  refine (proj1 (handleMessage_own_conversation eventA
                   (mkMessagePart (Some "m3") (Some "Hi again")) "p1" "c1"
                   two_conversations) "p1_c2" _ _ _ _).
  - vm_compute. reflexivity.
  - simpl. intros [H _]. discriminate.
  - discriminate.
Defined.
